(** * squrp: the container codec of [src/index.ts], embedded and verified

    The development follows [src/index.ts]: the little-endian integer
    helpers [encodeLE] / [decodeLE], the container writer
    [serializeFileMap], the container reader [deserializeFileMap] and the
    archive facade [unzip] on top of an external gzip stream. A second part
    adds the loop of [concatUint8Arrays], [normalizeInput], [zip] and the
    [Blob] and base64 transports.

    Data model.
    - A [Uint8Array] is a [list byte].
    - A JavaScript string is the list of its UTF-16 code units ([list Z]);
      [path.length] is the length of that list.
    - A JavaScript number holding a length or an offset is a [Z]; the
      bitwise operators [&], [|], [<<], [>>] first wrap their operands to
      signed 32 bits ([to_int32]).
    - A thrown [SqurpError] is represented by its [code]; its message is not
      modelled.
    - A [Map] is the list of its bindings in insertion order.
    - [TextEncoder] / [TextDecoder] are the platform's UTF-8 codec, modelled
      after the WHATWG Encoding Standard (replacement error mode, byte order
      mark removed on decode). *)

From Stdlib Require Import ZArith List Bool Lia.
From Stdlib Require Import Sorting Permutation.
From Stdlib Require Import Strings.Byte.
Import ListNotations.
Open Scope Z_scope.

(* ================================================================= *)
(** ** Errors and results *)

Inductive SqurpErrorCode : Set :=
| INVALID_HEADER
| CORRUPTED_DATA
| UNSUPPORTED_VERSION
| PATH_TOO_LONG
| CONTENT_TOO_LARGE
| UNEXPECTED_END
| ENTRY_EXCEEDS_BOUNDS.

(** The outcome of a call: a value, or a thrown [SqurpError]. *)
Inductive outcome (A : Type) : Type :=
| Ok (a : A)
| Throw (code : SqurpErrorCode).

Arguments Ok {A} a.
Arguments Throw {A} code.

Definition bind {A B} (r : outcome A) (k : A -> outcome B) : outcome B :=
  match r with
  | Ok a => k a
  | Throw e => Throw e
  end.

Notation "x <- r ;; k" := (bind r (fun x => k))
  (at level 61, r at next level, right associativity).

Fixpoint mapM {A B} (f : A -> outcome B) (l : list A) : outcome (list B) :=
  match l with
  | [] => Ok []
  | a :: l' => b <- f a ;; bs <- mapM f l' ;; Ok (b :: bs)
  end.

(* ================================================================= *)
(** ** Bytes, numbers and typed-array access *)

Definition byte2Z (b : byte) : Z := Z.of_N (Byte.to_N b).

(** Storing a number into a [Uint8Array] slot keeps it modulo 256. *)
Definition Z2byte (z : Z) : byte :=
  match Byte.of_N (Z.to_N (z mod 256)) with
  | Some b => b
  | None => x00
  end.

(** [arr.length] as a number. *)
Definition len {A} (l : list A) : Z := Z.of_nat (length l).

(** ECMAScript [ToInt32]. *)
Definition to_int32 (v : Z) : Z := (v + 2 ^ 31) mod 2 ^ 32 - 2 ^ 31.

(** [data[i]]: [None] stands for [undefined]. *)
Definition index {A} (data : list A) (i : Z) : option A :=
  if i <? 0 then None else nth_error data (Z.to_nat i).

(** Relative index of [%TypedArray%.prototype.slice]: a negative position
    counts from the end, and the result is clamped to [0 .. length]. *)
Definition relative_index (length i : Z) : Z :=
  if i <? 0 then Z.max (length + i) 0 else Z.min i length.

(** [data.slice(start, end)]. *)
Definition slice {A} (data : list A) (start end_ : Z) : list A :=
  let k := relative_index (len data) start in
  let final := relative_index (len data) end_ in
  firstn (Z.to_nat (final - k)) (skipn (Z.to_nat k) data).

Definition byte_eqb (a b : byte) : bool := Byte.eqb a b.

(* ================================================================= *)
(** ** [encodeLE] and [decodeLE] *)

(** The loop of [encodeLE]: [result[i] = value & 0xff; value >>= 8]. *)
Fixpoint encodeLE_loop (value : Z) (bytes : nat) : list byte :=
  match bytes with
  | O => []
  | S n =>
      Z2byte (Z.land (to_int32 value) 255)
      :: encodeLE_loop (Z.shiftr (to_int32 value) 8) n
  end.

(** [Number.isInteger] holds of every [Z]; only the sign test remains. *)
Definition encodeLE (value : Z) (bytes : nat) : outcome (list byte) :=
  if value <? 0 then Throw CORRUPTED_DATA
  else Ok (encodeLE_loop value bytes).

(** [decodeLE]: from the last byte down to the first,
    [result = (result << 8) | byte]. *)
Definition decodeLE (bytes : list byte) : Z :=
  fold_right
    (fun b result => Z.lor (to_int32 (Z.shiftl result 8)) (byte2Z b))
    0 bytes.

Definition HEADER : list byte := [x73; x71; x75; x69; x72; x70; x00].

(* ================================================================= *)
(** ** JavaScript strings and the platform text codec *)

(** A string is the sequence of its UTF-16 code units. *)
Definition jsstring : Type := list Z.

Fixpoint string_eqb (a b : jsstring) : bool :=
  match a, b with
  | [], [] => true
  | x :: a', y :: b' => (x =? y) && string_eqb a' b'
  | _, _ => false
  end.

(** Conversion of a string to scalar values (Web IDL, USVString): a
    surrogate pair becomes one code point, an unpaired surrogate becomes
    U+FFFD. *)
Fixpoint to_scalar_values (s : jsstring) : list Z :=
  match s with
  | [] => []
  | c :: rest =>
      if (c <? 0xD800) || (0xDFFF <? c) then c :: to_scalar_values rest
      else if 0xDC00 <=? c then 0xFFFD :: to_scalar_values rest
      else
        match rest with
        | [] => [0xFFFD]
        | d :: rest' =>
            if (0xDC00 <=? d) && (d <=? 0xDFFF)
            then (0x10000 + 0x400 * (c - 0xD800) + (d - 0xDC00))
                   :: to_scalar_values rest'
            else 0xFFFD :: to_scalar_values rest
        end
  end.

(** Code units of one code point (ECMAScript CodePointToUTF16CodeUnits). *)
Definition utf16_units (cp : Z) : list Z :=
  if cp <=? 0xFFFF then [cp]
  else [(cp - 0x10000) / 0x400 + 0xD800; (cp - 0x10000) mod 0x400 + 0xDC00].

(** The continuation bytes of the UTF-8 encoder:
    [0x80 | ((cp >> (6 * (count - 1))) & 0x3F)], for [count] down to 1. *)
Fixpoint utf8_continuation (cp : Z) (count : nat) : list byte :=
  match count with
  | O => []
  | S n =>
      Z2byte (Z.lor 0x80 (Z.land (Z.shiftr cp (6 * Z.of_nat n)) 0x3F))
      :: utf8_continuation cp n
  end.

(** The UTF-8 encoder of the Encoding Standard, for one code point. *)
Definition utf8_encode_code_point (cp : Z) : list byte :=
  if cp <=? 0x7F then [Z2byte cp]
  else
    let '(count, offset) :=
      if cp <=? 0x7FF then (1%nat, 0xC0)
      else if cp <=? 0xFFFF then (2%nat, 0xE0)
      else (3%nat, 0xF0) in
    Z2byte (Z.shiftr cp (6 * Z.of_nat count) + offset)
    :: utf8_continuation cp count.

(** [new TextEncoder().encode(text)]. *)
Definition encodeText (text : jsstring) : list byte :=
  flat_map utf8_encode_code_point (to_scalar_values text).

(** State of the UTF-8 decoder of the Encoding Standard. *)
Record utf8_state : Set := mk_utf8_state {
  code_point : Z;
  bytes_seen : Z;
  bytes_needed : Z;
  lower_boundary : Z;
  upper_boundary : Z
}.

Definition utf8_initial : utf8_state :=
  mk_utf8_state 0 0 0 0x80 0xBF.

Inductive utf8_step : Set :=
| Continue (st : utf8_state)
| Emit (cp : Z)
| Error.

(** The decoder's handler when no byte is pending (bytes needed is 0). *)
Definition utf8_lead (b : Z) : utf8_step :=
  if b <=? 0x7F then Emit b
  else if (0xC2 <=? b) && (b <=? 0xDF)
  then Continue (mk_utf8_state (Z.land b 0x1F) 0 1 0x80 0xBF)
  else if (0xE0 <=? b) && (b <=? 0xEF)
  then Continue (mk_utf8_state (Z.land b 0xF) 0 2
                   (if b =? 0xE0 then 0xA0 else 0x80)
                   (if b =? 0xED then 0x9F else 0xBF))
  else if (0xF0 <=? b) && (b <=? 0xF4)
  then Continue (mk_utf8_state (Z.land b 0x7) 0 3
                   (if b =? 0xF0 then 0x90 else 0x80)
                   (if b =? 0xF4 then 0x8F else 0xBF))
  else Error.

(** What the decoder outputs for a step, before it reads on; an error is
    output as U+FFFD (replacement mode). *)
Definition utf8_resume (o : utf8_step) (k : utf8_state -> list Z) : list Z :=
  match o with
  | Emit cp => cp :: k utf8_initial
  | Error => 0xFFFD :: k utf8_initial
  | Continue st => k st
  end.

Fixpoint utf8_decode_from (st : utf8_state) (bs : list byte) : list Z :=
  match bs with
  | [] => if bytes_needed st =? 0 then [] else [0xFFFD]
  | b :: rest =>
      let byte := byte2Z b in
      if bytes_needed st =? 0
      then utf8_resume (utf8_lead byte) (fun st' => utf8_decode_from st' rest)
      else if (byte <? lower_boundary st) || (upper_boundary st <? byte)
      then
        (* error; the byte is put back and read again from the initial state *)
        0xFFFD
        :: utf8_resume (utf8_lead byte) (fun st' => utf8_decode_from st' rest)
      else
        let cp := Z.lor (Z.shiftl (code_point st) 6) (Z.land byte 0x3F) in
        let seen := bytes_seen st + 1 in
        if seen =? bytes_needed st
        then cp :: utf8_decode_from utf8_initial rest
        else utf8_decode_from
               (mk_utf8_state cp seen (bytes_needed st) 0x80 0xBF) rest
  end.

(** A leading U+FEFF is dropped ([ignoreBOM] is false by default). *)
Definition strip_bom (cps : list Z) : list Z :=
  match cps with
  | cp :: rest => if cp =? 0xFEFF then rest else cps
  | [] => []
  end.

(** [new TextDecoder().decode(bytes)]. *)
Definition decodeText (bytes : list byte) : jsstring :=
  flat_map utf16_units (strip_bom (utf8_decode_from utf8_initial bytes)).

(* ================================================================= *)
(** ** The entry model: [Map<string, string | Uint8Array>] *)

Inductive Content : Type :=
| Text (s : jsstring)
| Binary (b : list byte).

(** Bindings in insertion order; keys are pairwise distinct in a [Map]. *)
Definition FileMap : Type := list (jsstring * Content).

(** [map.set(key, value)]: an existing key keeps its position. *)
Fixpoint map_set (m : FileMap) (key : jsstring) (value : Content) : FileMap :=
  match m with
  | [] => [(key, value)]
  | (k, v) :: m' =>
      if string_eqb k key then (k, value) :: m'
      else (k, v) :: map_set m' key value
  end.

(** [map.get(key)]. *)
Fixpoint map_get (m : FileMap) (key : jsstring) : option Content :=
  match m with
  | [] => None
  | (k, v) :: m' => if string_eqb k key then Some v else map_get m' key
  end.

(** [content.length] of a map value: code units of a string, bytes of a
    [Uint8Array]. *)
Definition content_length (c : Content) : Z :=
  match c with
  | Text s => len s
  | Binary b => len b
  end.

(* ================================================================= *)
(** ** [serializeFileMap] *)

(** [concatUint8Arrays]. *)
Definition concatUint8Arrays (arrays : list (list byte)) : list byte :=
  concat arrays.

Record Entry : Type := mk_entry {
  path : jsstring;
  isBinary : bool;
  content : list byte
}.

(** [entries.reduce((sum, e) => sum + e.content.length, 0)]. *)
Definition stored_content_size (entries : list Entry) : Z :=
  fold_left (fun sum e => sum + len (content e)) entries 0.

(** The first loop: it walks the map's iterator, checks the two limits and
    pushes the entry with its content as bytes. *)
Fixpoint collectEntries (it : FileMap) (entries : list Entry)
  : outcome (list Entry) :=
  match it with
  | [] => Ok entries
  | (path, content) :: rest =>
      if len path >? 65535 then Throw PATH_TOO_LONG
      else
        let totalSize := stored_content_size entries + content_length content in
        if totalSize >? 0xffffffff then Throw CONTENT_TOO_LARGE
        else
          let contentBytes :=
            match content with
            | Text s => encodeText s
            | Binary b => b
            end in
          let is_binary :=
            match content with
            | Text _ => false
            | Binary _ => true
            end in
          collectEntries rest
            (entries ++ [mk_entry path is_binary contentBytes])
  end.

(** The body of the second loop: one entry record. *)
Definition serializeEntry (entry : Entry) : outcome (list byte) :=
  let pathBytes := encodeText (path entry) in
  contentLengthBytes <- encodeLE (len (content entry)) 4 ;;
  pathLengthBytes <- encodeLE (len pathBytes) 2 ;;
  let flagByte := [if isBinary entry then x01 else x00] in
  Ok (concatUint8Arrays
        [pathLengthBytes; contentLengthBytes; flagByte; pathBytes;
         content entry]).

Definition serializeFileMap (map : FileMap) : outcome (list byte) :=
  entries <- collectEntries map [] ;;
  serializedEntries <- mapM serializeEntry entries ;;
  let entryData := concatUint8Arrays serializedEntries in
  entryCountBytes <- encodeLE (len entries) 4 ;;
  let totalLength := len HEADER + 4 + 4 + len entryData in
  totalLengthBytes <- encodeLE totalLength 4 ;;
  Ok (concatUint8Arrays
        [HEADER; totalLengthBytes; entryCountBytes; entryData]).

(* ================================================================= *)
(** ** [deserializeFileMap] *)

(** Strict equality [===] of two array reads (a number or [undefined]). *)
Definition strict_eq (x y : option byte) : bool :=
  match x, y with
  | Some a, Some b => byte_eqb a b
  | None, None => true
  | _, _ => false
  end.

(** The header loop: [data[i] !== HEADER[i]] for no [i < HEADER.length]. *)
Definition header_matches (data : list byte) : bool :=
  forallb (fun i => strict_eq (index data (Z.of_nat i)) (index HEADER (Z.of_nat i)))
          (seq 0 (length HEADER)).

(** One iteration of the entry loop, from [offset], on the map built so
    far; it returns the new offset and the updated map. *)
Definition readEntry (data : list byte) (offset : Z) (result : FileMap)
  : outcome (Z * FileMap) :=
  if offset + 7 >? len data then Throw UNEXPECTED_END
  else
    let pathLength := decodeLE (slice data offset (offset + 2)) in
    let offset := offset + 2 in
    let contentLength := decodeLE (slice data offset (offset + 4)) in
    let offset := offset + 4 in
    let is_binary := strict_eq (index data offset) (Some x01) in
    let offset := offset + 1 in
    if offset + pathLength + contentLength >? len data
    then Throw ENTRY_EXCEEDS_BOUNDS
    else
      let pathBytes := slice data offset (offset + pathLength) in
      let offset := offset + pathLength in
      let content := slice data offset (offset + contentLength) in
      let offset := offset + contentLength in
      let path := decodeText pathBytes in
      Ok (offset,
          map_set result path
            (if is_binary then Binary content else Text (decodeText content))).

(** The entry loop, [count] iterations. *)
Fixpoint readEntries (count : nat) (data : list byte) (offset : Z)
  (result : FileMap) : outcome FileMap :=
  match count with
  | O => Ok result
  | S n =>
      r <- readEntry data offset result ;;
      readEntries n data (fst r) (snd r)
  end.

Definition deserializeFileMap (data : list byte) : outcome FileMap :=
  if negb (header_matches data) then Throw INVALID_HEADER
  else
    let offset := len HEADER in
    if offset + 4 >? len data then Throw UNEXPECTED_END
    else
      let totalLength := decodeLE (slice data offset (offset + 4)) in
      let offset := offset + 4 in
      if negb (totalLength =? len data) then Throw CORRUPTED_DATA
      else if offset + 4 >? len data then Throw UNEXPECTED_END
      else
        let entryCount := decodeLE (slice data offset (offset + 4)) in
        let offset := offset + 4 in
        (* [for (let i = 0; i < entryCount; i++)] *)
        readEntries (Z.to_nat entryCount) data offset [].

(* ================================================================= *)
(** ** [decompressWithGzip] and [unzip] *)

(** What reading the platform's [DecompressionStream] can do: deliver the
    decompressed bytes, or throw. A thrown value is a [SqurpError] or any
    other JavaScript value (kept abstract, tagged by a number). *)
Inductive Thrown : Set :=
| ThrownSqurp (code : SqurpErrorCode)
| ThrownOther (tag : nat).

Inductive StreamRead : Type :=
| Delivered (bytes : list byte)
| Failed (error : Thrown).

Section Facade.

(** The external gzip decompression stream. *)
Variable gzip_stream : list byte -> StreamRead.

(** [try { ... } catch (error) { if (error instanceof SqurpError) throw
    error; throw createError(CORRUPTED_DATA, ...) }]. *)
Definition decompressWithGzip (data : list byte) : outcome (list byte) :=
  match gzip_stream data with
  | Delivered chunks => Ok chunks
  | Failed (ThrownSqurp code) => Throw code
  | Failed (ThrownOther _) => Throw CORRUPTED_DATA
  end.

Definition unzip (data : list byte) : outcome FileMap :=
  decompressed <- decompressWithGzip data ;;
  deserializeFileMap decompressed.

End Facade.

(* ================================================================= *)
(** ** The container format, as the specification words it

    These definitions follow the specification's description of the
    format (section 6, all integers little-endian unsigned); the theorems
    compare them with what the code reads and writes. *)

(** The unsigned value of a little-endian field. *)
Definition unsignedLE (bytes : list byte) : Z :=
  fold_right (fun b value => byte2Z b + 256 * value) 0 bytes.

(** The [width]-byte little-endian field holding [value]. *)
Fixpoint le_bytes (width : nat) (value : Z) : list byte :=
  match width with
  | O => []
  | S n => Z2byte (value mod 256) :: le_bytes n (value / 256)
  end.

(** An entry record as stored: path bytes, flag byte, content bytes. *)
Record RawRecord : Type := mk_raw {
  raw_path : list byte;
  raw_flag : byte;
  raw_content : list byte
}.

(** [pathLength(2) | contentLength(4) | flag(1) | pathBytes | contentBytes]. *)
Definition record_bytes (r : RawRecord) : list byte :=
  le_bytes 2 (len (raw_path r)) ++ le_bytes 4 (len (raw_content r))
  ++ [raw_flag r] ++ raw_path r ++ raw_content r.

(** Magic header, [totalLength], [entryCount], then the records. *)
Definition container (records : list RawRecord) : list byte :=
  let body := flat_map record_bytes records in
  HEADER ++ le_bytes 4 (15 + len body) ++ le_bytes 4 (len records) ++ body.

(** What the reader makes of a stored record: the decoded path and, by the
    flag byte, the raw bytes or the decoded text. *)
Definition decoded_record (r : RawRecord) : jsstring * Content :=
  (decodeText (raw_path r),
   if byte_eqb (raw_flag r) x01 then Binary (raw_content r)
   else Text (decodeText (raw_content r))).

(** The content of the last binding of [key] in a list of bindings. *)
Fixpoint last_binding (key : jsstring) (l : list (jsstring * Content))
  : option Content :=
  match l with
  | [] => None
  | (k, v) :: l' =>
      match last_binding key l' with
      | Some v' => Some v'
      | None => if string_eqb k key then Some v else None
      end
  end.

(** A string that is well-formed UTF-16: code units in range and every
    surrogate part of a high-low pair. *)
Fixpoint well_formed (s : jsstring) : bool :=
  match s with
  | [] => true
  | c :: rest =>
      if ((0 <=? c) && (c <? 0xD800)) || ((0xDFFF <? c) && (c <=? 0xFFFF))
      then well_formed rest
      else if (0xD800 <=? c) && (c <? 0xDC00)
      then match rest with
           | d :: rest' =>
               (0xDC00 <=? d) && (d <=? 0xDFFF) && well_formed rest'
           | [] => false
           end
      else false
  end.

(** The string begins with U+FEFF (the byte order mark). *)
Definition starts_with_bom (s : jsstring) : bool :=
  match s with
  | c :: _ => c =? 0xFEFF
  | [] => false
  end.

(** The bytes an entry's content takes in the container. *)
Definition content_bytes (c : Content) : list byte :=
  match c with
  | Text s => encodeText s
  | Binary b => b
  end.

(** Sum of the entries' content byte lengths. *)
Definition total_content_bytes (m : FileMap) : Z :=
  fold_right (fun e sum => len (content_bytes (snd e)) + sum) 0 m.

(** Size of the container of a map: 15 bytes, then per entry a 7-byte
    prefix, the path bytes and the content bytes. *)
Definition container_size (m : FileMap) : Z :=
  fold_right
    (fun e sum => 7 + len (encodeText (fst e)) + len (content_bytes (snd e)) + sum)
    15 m.

(** Text values are free of unpaired surrogates and of a leading byte
    order mark. *)
Definition clean_text (s : jsstring) : Prop :=
  well_formed s = true /\ starts_with_bom s = false.

Definition clean_content (c : Content) : Prop :=
  match c with
  | Text s => clean_text s
  | Binary _ => True
  end.

(** The stored record of a map entry. *)
Definition raw_of_entry (e : jsstring * Content) : RawRecord :=
  mk_raw (encodeText (fst e))
         (match snd e with Text _ => x00 | Binary _ => x01 end)
         (content_bytes (snd e)).

(** [data] with the byte at position [i] replaced by [b]. *)
Fixpoint set_byte (data : list byte) (i : nat) (b : byte) : list byte :=
  match data, i with
  | [], _ => []
  | _ :: rest, O => b :: rest
  | x :: rest, S i' => x :: set_byte rest i' b
  end.

(* ================================================================= *)
(** ** Auxiliary notions used by the statements *)

(** A Unicode scalar value: a code point that is not a surrogate. *)
Definition scalar_value (c : Z) : Prop :=
  0 <= c < 0xD800 \/ 0xDFFF < c <= 0x10FFFF.

(** The reader's map after a sequence of records, starting from [result]:
    each record's binding is set in turn. *)
Definition read_records (records : list RawRecord) (result : FileMap) : FileMap :=
  fold_left (fun m r => map_set m (fst (decoded_record r)) (snd (decoded_record r)))
    records result.

(** The entry pushed by the first loop of [serializeFileMap] for a map
    binding. *)
Definition entry_of (e : jsstring * Content) : Entry :=
  mk_entry (fst e)
    (match snd e with Text _ => false | Binary _ => true end)
    (content_bytes (snd e)).

(** The record written by the second loop for an entry. *)
Definition entry_record (e : Entry) : list byte :=
  encodeLE_loop (len (encodeText (path e))) 2
  ++ encodeLE_loop (len (content e)) 4
  ++ [if isBinary e then x01 else x00]
  ++ encodeText (path e) ++ content e.

(** What the size check of the first loop compares with [0xffffffff] at
    each binding: the bytes stored so far plus [content.length]. *)
Fixpoint size_checks_pass (it : FileMap) (stored : Z) : Prop :=
  match it with
  | [] => True
  | (_, c) :: rest =>
      stored + content_length c <= 0xffffffff
      /\ size_checks_pass rest (stored + len (content_bytes c))
  end.

(** A UTF-16 code unit. *)
Definition code_unit (c : Z) : Prop := 0 <= c <= 0xFFFF.

(** What the container stores of a binding: the path, the kind and the
    content bytes. *)
Definition stored_view (e : jsstring * Content) : jsstring * bool * list byte :=
  (fst e,
   match snd e with Text _ => false | Binary _ => true end,
   content_bytes (snd e)).

(** A binding as it comes back from the container: text is encoded and
    decoded again. *)
Definition reread (e : jsstring * Content) : jsstring * Content :=
  (fst e,
   match snd e with
   | Text s => Text (decodeText (encodeText s))
   | Binary b => Binary b
   end).

(** Content whose text, if any, is made of code units and does not begin
    with the byte order mark; unpaired surrogates are allowed. *)
Definition plain_content (c : Content) : Prop :=
  match c with
  | Text s => Forall code_unit s /\ starts_with_bom s = false
  | Binary _ => True
  end.

(** [data] without its last [k] bytes. *)
Definition truncate (data : list byte) (k : Z) : list byte :=
  firstn (Z.to_nat (len data - k)) data.

(* ================================================================= *)
(** ** Concrete inputs *)

(** ["a.txt" -> "hi", "b.bin" -> [0x00, 0xFF]]. *)
Definition example_map : FileMap :=
  [([97; 46; 116; 120; 116], Text [104; 105]);
   ([98; 46; 98; 105; 110], Binary [x00; xff])].

(** One empty binary entry whose path is U+FEFF followed by ["a"]. *)
Definition bom_map : FileMap := [([0xFEFF; 97], Binary [])].

(** One empty binary entry whose path is the unpaired surrogate U+D800. *)
Definition surrogate_map : FileMap := [([0xD800], Binary [])].

(** A text with an unpaired surrogate, under an ASCII path, and a binary
    entry under a path with a CJK character and a surrogate pair. *)
Definition surrogate_text_map : FileMap :=
  [([97; 46; 116; 120; 116], Text [104; 0xD800; 105]);
   ([0x65E5; 0xD83D; 0xDE80], Binary [x00; xff])].

(** One binary entry of [n] zero bytes under the path ["a"]. *)
Definition big_binary_map (n : nat) : FileMap := [([97], Binary (repeat x00 n))].

(** Three stored records, the first and the last with the path ["a"]. *)
Definition duplicate_records : list RawRecord :=
  [mk_raw [x61] x00 [x31]; mk_raw [x62] x01 [x32]; mk_raw [x61] x01 [x33]].

(** A buffer of [11 + n] bytes: the magic header, the field [00 00 00 80]
    (2^31, little-endian) and [n] zero bytes. *)
Definition two_gigabytes (n : nat) : list byte :=
  HEADER ++ [x00; x00; x00; x80] ++ repeat x00 n.

(** A path of [n] copies of U+65E5, three UTF-8 bytes each. *)
Definition cjk_path (n : nat) : jsstring := repeat 0x65E5 n.

(** One entry with empty text content, under a path of 22000 code units
    and 66000 UTF-8 bytes. *)
Definition long_path_map : FileMap := [(cjk_path (Z.to_nat 22000), Text [])].

(** A binary entry of [n] bytes followed by the text U+00E9, which is one
    code unit and two UTF-8 bytes. *)
Definition binary_then_text (n : nat) : FileMap :=
  [([97], Binary (repeat x00 n)); ([98], Text [233])].

(** Content of 4294967294 + 2 bytes. *)
Definition oversized_map : FileMap :=
  binary_then_text (Z.to_nat 4294967294).

(** A decompression stream that throws: a [SqurpError] on empty input, a
    foreign error otherwise. *)
Definition failing_stream (data : list byte) : StreamRead :=
  match data with
  | [] => Failed (ThrownSqurp UNEXPECTED_END)
  | _ => Failed (ThrownOther 0)
  end.

(* ================================================================= *)
(** ** The loop of [concatUint8Arrays] *)

(** [new Uint8Array(length)]: [length] zero bytes. *)
Definition new_Uint8Array (length : Z) : list byte :=
  repeat x00 (Z.to_nat length).

(** [result.set(arr, offset)]: [arr] is written over [result] from
    [offset]; [None] stands for the [RangeError] thrown when [arr] does not
    fit. *)
Definition typed_array_set (result arr : list byte) (offset : Z)
  : option (list byte) :=
  if (offset <? 0) || (len result <? offset + len arr) then None
  else Some (firstn (Z.to_nat offset) result ++ arr
             ++ skipn (Z.to_nat (offset + len arr)) result).

(** [for (const arr of arrays) { result.set(arr, offset); offset +=
    arr.length }]. *)
Fixpoint concat_loop (arrays : list (list byte)) (result : list byte)
  (offset : Z) : option (list byte) :=
  match arrays with
  | [] => Some result
  | arr :: rest =>
      match typed_array_set result arr offset with
      | Some result' => concat_loop rest result' (offset + len arr)
      | None => None
      end
  end.

(** [concatUint8Arrays] as it is written: the total length by [reduce], a
    zero-filled buffer of that length, then the loop. *)
Definition concatUint8Arrays_loop (arrays : list (list byte))
  : option (list byte) :=
  let totalLength := fold_left (fun sum arr => sum + len arr) arrays 0 in
  concat_loop arrays (new_Uint8Array totalLength) 0.

(* ================================================================= *)
(** ** [normalizeInput] *)

(** The value of a string of decimal digits, after [acc]. *)
Fixpoint digits_value (s : jsstring) (acc : Z) : option Z :=
  match s with
  | [] => Some acc
  | c :: rest =>
      if (48 <=? c) && (c <=? 57) then digits_value rest (10 * acc + (c - 48))
      else None
  end.

(** An array index (ECMAScript): the canonical decimal form of an integer
    from 0 to 2^32 - 2. *)
Definition array_index (key : jsstring) : option Z :=
  match key with
  | [] => None
  | c :: rest =>
      if (c =? 48) && negb (match rest with [] => true | _ => false end)
      then None
      else
        match digits_value key 0 with
        | Some v => if v <=? 2 ^ 32 - 2 then Some v else None
        | None => None
        end
  end.

(** Insertion of a property among properties sorted by array index. *)
Fixpoint insert_by_index (i : Z) (p : jsstring * Content)
  (sorted : list (Z * (jsstring * Content))) : list (Z * (jsstring * Content)) :=
  match sorted with
  | [] => [(i, p)]
  | (j, q) :: rest =>
      if i <? j then (i, p) :: (j, q) :: rest
      else (j, q) :: insert_by_index i p rest
  end.

(** A plain object: its own enumerable string-keyed properties, in
    creation order, with pairwise distinct keys. [Object.entries] lists the
    properties whose key is an array index first, in ascending index order,
    then the others in creation order. *)
Fixpoint index_properties (o : list (jsstring * Content))
  : list (Z * (jsstring * Content)) :=
  match o with
  | [] => []
  | p :: rest =>
      match array_index (fst p) with
      | Some i => insert_by_index i p (index_properties rest)
      | None => index_properties rest
      end
  end.

Definition Object_entries (o : list (jsstring * Content))
  : list (jsstring * Content) :=
  map snd (index_properties o)
  ++ filter (fun p => match array_index (fst p) with
                      | Some _ => false
                      | None => true
                      end) o.

(** [new Map(entries)]: every entry is [set] in turn. *)
Definition new_Map (entries : list (jsstring * Content)) : FileMap :=
  fold_left (fun m e => map_set m (fst e) (snd e)) entries [].

(** [ZipInput = FileMap | Map<string, string | Uint8Array>]. *)
Inductive ZipInput : Type :=
| InputMap (m : FileMap)
| InputObject (o : list (jsstring * Content)).

Definition normalizeInput (input : ZipInput) : FileMap :=
  match input with
  | InputMap m => m
  | InputObject o => new_Map (Object_entries o)
  end.

(* ================================================================= *)
(** ** [btoa] and [atob]

    Modelled after the HTML Standard and the forgiving-base64 algorithms of
    the Infra Standard. *)

(** The base64 alphabet of RFC 4648, by index. *)
Definition base64_char (i : Z) : Z :=
  if i <? 26 then 65 + i
  else if i <? 52 then 97 + (i - 26)
  else if i <? 62 then 48 + (i - 52)
  else if i =? 62 then 43
  else 47.

(** Base64 with padding, on byte values. *)
Fixpoint base64_encode (data : list Z) : jsstring :=
  match data with
  | [] => []
  | [a] => [base64_char (a / 4); base64_char (a mod 4 * 16); 61; 61]
  | [a; b] =>
      [base64_char (a / 4); base64_char (a mod 4 * 16 + b / 16);
       base64_char (b mod 16 * 4); 61]
  | a :: b :: c :: rest =>
      base64_char (a / 4) :: base64_char (a mod 4 * 16 + b / 16)
      :: base64_char (b mod 16 * 4 + c / 64) :: base64_char (c mod 64)
      :: base64_encode rest
  end.

(** [btoa(data)]: [None] stands for the [InvalidCharacterError] thrown
    when a code unit is above 255. *)
Definition btoa (data : jsstring) : option jsstring :=
  if forallb (fun c => c <=? 255) data then Some (base64_encode data)
  else None.

Definition base64_index (c : Z) : option Z :=
  if (65 <=? c) && (c <=? 90) then Some (c - 65)
  else if (97 <=? c) && (c <=? 122) then Some (c - 71)
  else if (48 <=? c) && (c <=? 57) then Some (c + 4)
  else if c =? 43 then Some 62
  else if c =? 47 then Some 63
  else None.

Definition ascii_whitespace (c : Z) : bool :=
  (c =? 9) || (c =? 10) || (c =? 12) || (c =? 13) || (c =? 32).

(** Removal of one or two trailing [=]. *)
Definition strip_padding (data : jsstring) : jsstring :=
  match rev data with
  | a :: b :: rest =>
      if a =? 61 then if b =? 61 then rev rest else rev (b :: rest)
      else data
  | [a] => if a =? 61 then [] else data
  | [] => data
  end.

(** The decoding loop: six bits per character into [buffer], which holds
    [count] characters; three bytes go out at every fourth character, and
    what is left at the end gives one byte (two characters, the last four
    bits dropped) or two bytes (three characters, the last two bits
    dropped). *)
Fixpoint base64_decode_loop (data : jsstring) (buffer : Z) (count : nat)
  : list Z :=
  match data with
  | [] =>
      match count with
      | 2%nat => [buffer / 16]
      | 3%nat => [buffer / 4 / 256; buffer / 4 mod 256]
      | _ => []
      end
  | c :: rest =>
      let buffer := buffer * 64 + match base64_index c with
                                  | Some i => i
                                  | None => 0
                                  end in
      match count with
      | 3%nat =>
          buffer / 65536 :: buffer / 256 mod 256 :: buffer mod 256
          :: base64_decode_loop rest 0 0
      | _ => base64_decode_loop rest buffer (S count)
      end
  end.

(** Length in code points: a surrogate pair counts once. *)
Definition code_point_length (s : jsstring) : Z := len (to_scalar_values s).

(** Forgiving-base64 decode; [None] is failure. *)
Definition forgiving_base64_decode (data : jsstring) : option (list Z) :=
  let data := filter (fun c => negb (ascii_whitespace c)) data in
  let data :=
    if code_point_length data mod 4 =? 0 then strip_padding data else data in
  if code_point_length data mod 4 =? 1 then None
  else if forallb (fun c => match base64_index c with
                            | Some _ => true
                            | None => false
                            end) data
  then Some (base64_decode_loop data 0 0)
  else None.

(** A group of six bits, and the characters of the alphabet. *)
Definition sextet (i : Z) : Prop := 0 <= i < 64.

Definition alphabet (c : Z) : Prop := exists i, sextet i /\ c = base64_char i.

(** [atob(data)]: [None] stands for the [InvalidCharacterError]. *)
Definition atob (data : jsstring) : option jsstring :=
  forgiving_base64_decode data.

(* ================================================================= *)
(** ** The facade: [zip], [unzip] and their transports *)

(** How an [async] facade function settles: with a value, or rejected with
    the thrown value, a [SqurpError] or a foreign one. *)
Inductive completion (A : Type) : Type :=
| Returned (a : A)
| Rejected (error : Thrown).

Arguments Returned {A} a.
Arguments Rejected {A} error.

Definition of_outcome {A} (o : outcome A) : completion A :=
  match o with
  | Ok a => Returned a
  | Throw code => Rejected (ThrownSqurp code)
  end.

(** The [DOMException] named [InvalidCharacterError], as a foreign
    error. *)
Definition InvalidCharacterError : Thrown := ThrownOther 5.

(** A [Blob]: its bytes and its type. *)
Record Blob : Type := mk_blob {
  blob_bytes : list byte;
  blob_type : list Z
}.

(** ["application/octet-stream"]. *)
Definition octet_stream : list Z :=
  [97; 112; 112; 108; 105; 99; 97; 116; 105; 111; 110; 47;
   111; 99; 116; 101; 116; 45; 115; 116; 114; 101; 97; 109].

Section Archive.

(** The platform's gzip compression and decompression streams. *)
Variable gzip_compress : list byte -> StreamRead.
Variable gzip_decompress : list byte -> StreamRead.

(** [compressWithGzip] has no [catch]: a failure of the stream is the
    failure of the call. *)
Definition compressWithGzip (data : list byte) : completion (list byte) :=
  match gzip_compress data with
  | Delivered chunks => Returned chunks
  | Failed error => Rejected error
  end.

Definition zip (input : ZipInput) : completion (list byte) :=
  let map := normalizeInput input in
  match serializeFileMap map with
  | Ok serialized => compressWithGzip serialized
  | Throw code => Rejected (ThrownSqurp code)
  end.

Definition zipToBlob (input : ZipInput) : completion Blob :=
  match zip input with
  | Returned compressed => Returned (mk_blob compressed octet_stream)
  | Rejected error => Rejected error
  end.

Definition unzipFromBlob (blob : Blob) : completion FileMap :=
  of_outcome (unzip gzip_decompress (blob_bytes blob)).

(** [Array.from(compressed, (byte) => String.fromCharCode(byte)).join("")],
    then [btoa]. *)
Definition zipToBase64 (input : ZipInput) : completion jsstring :=
  match zip input with
  | Returned compressed =>
      let binary := map byte2Z compressed in
      match btoa binary with
      | Some base64 => Returned base64
      | None => Rejected InvalidCharacterError
      end
  | Rejected error => Rejected error
  end.

(** [atob], then [bytes[i] = binary.charCodeAt(i)], then [unzip]. *)
Definition unzipFromBase64 (base64 : jsstring) : completion FileMap :=
  match atob base64 with
  | Some binary =>
      let bytes := map Z2byte binary in
      of_outcome (unzip gzip_decompress bytes)
  | None => Rejected InvalidCharacterError
  end.

End Archive.

(* ================================================================= *)
(** ** The pending state of the UTF-8 decoder *)





(* ================================================================= *)
(** ** More concrete inputs *)

(** Streams that deliver their input unchanged. *)
Definition identity_stream (data : list byte) : StreamRead := Delivered data.

(** An object with the keys ["b"], ["10"], ["a"], ["2"], created in that
    order. *)
Definition numbered_object : list (jsstring * Content) :=
  [([98], Text [49]); ([49; 48], Text [50]); ([97], Text [51]);
   ([50], Text [52])].

(** The path of the repository's test: 70000 times ["a"], with the
    content ["content"]. *)
Definition test_long_path_map : FileMap :=
  [(repeat 97 (Z.to_nat 70000), Text [99; 111; 110; 116; 101; 110; 116])].

(** A buffer with the magic header, a [totalLength] field that holds the
    buffer's length, the [entryCount] field [count] and the bytes [body]. *)
Definition framed (count : list byte) (body : list byte) : list byte :=
  HEADER ++ le_bytes 4 (15 + len body) ++ count ++ body.

(* ================================================================= *)
(** * Proofs *)

(** Division and modulo by constants are handed to [lia] as their
    Euclidean equations. *)
Ltac Zify.zify_post_hook ::= Z.to_euclidean_division_equations.



(* ================================================================= *)
(** ** Bytes, 32-bit wrap-around and little-endian fields *)

Lemma byte2Z_range (b : byte) : 0 <= byte2Z b < 256.
Proof.
  unfold byte2Z. pose proof (Byte.to_N_bounded b). lia.
Qed.

Lemma byte2Z_Z2byte (z : Z) : byte2Z (Z2byte z) = z mod 256.
Proof.
  unfold byte2Z, Z2byte.
  destruct (Byte.of_N (Z.to_N (z mod 256))) eqn:E.
  - apply Byte.to_of_N in E. rewrite E. lia.
  - apply Byte.of_N_None_iff in E. lia.
Qed.

Lemma Z2byte_byte2Z (b : byte) : Z2byte (byte2Z b) = b.
Proof.
  unfold Z2byte, byte2Z. pose proof (Byte.to_N_bounded b).
  replace (Z.to_N (Z.of_N (Byte.to_N b) mod 256)) with (Byte.to_N b) by lia.
  now rewrite Byte.of_to_N.
Qed.

Lemma byte2Z_inj (a b : byte) : byte2Z a = byte2Z b -> a = b.
Proof.
  intros H. rewrite <- (Z2byte_byte2Z a), <- (Z2byte_byte2Z b). now rewrite H.
Qed.

Lemma to_int32_range (v : Z) : - 2 ^ 31 <= to_int32 v < 2 ^ 31.
Proof. unfold to_int32. lia. Qed.

Lemma to_int32_id (v : Z) : - 2 ^ 31 <= v < 2 ^ 31 -> to_int32 v = v.
Proof. unfold to_int32. lia. Qed.

Lemma to_int32_mod (v : Z) : to_int32 v mod 2 ^ 32 = v mod 2 ^ 32.
Proof. unfold to_int32. lia. Qed.

Lemma to_int32_eq_mod (a b : Z) :
  a mod 2 ^ 32 = b mod 2 ^ 32 -> to_int32 a = to_int32 b.
Proof. unfold to_int32. lia. Qed.

(** Bitwise operations as arithmetic. *)
Lemma land_ones_mod (x : Z) (k : Z) :
  0 <= k -> Z.land x (2 ^ k - 1) = x mod 2 ^ k.
Proof.
  intros Hk. rewrite <- Z.land_ones by assumption.
  f_equal. rewrite Z.ones_equiv. lia.
Qed.

Lemma lor_low (k x y : Z) :
  0 <= k -> 0 <= y < 2 ^ k -> Z.lor (x * 2 ^ k) y = x * 2 ^ k + y.
Proof.
  intros Hk Hy.
  assert (Hland : Z.land (x * 2 ^ k) y = 0).
  { apply Z.bits_inj'. intros n Hn.
    rewrite Z.land_spec, Z.bits_0.
    destruct (Z.lt_ge_cases n k) as [Hlt | Hge].
    - rewrite Z.mul_pow2_bits_low by assumption. reflexivity.
    - replace y with (y mod 2 ^ k) by (apply Z.mod_small; assumption).
      rewrite Z.mod_pow2_bits_high by lia. apply andb_false_r. }
  rewrite <- Z.lxor_lor by assumption.
  symmetry. apply Z.add_nocarry_lxor. assumption.
Qed.

Lemma land_255 (x : Z) : Z.land x 255 = x mod 256.
Proof. exact (land_ones_mod x 8 ltac:(lia)). Qed.

Lemma land_63 (x : Z) : Z.land x 63 = x mod 64.
Proof. exact (land_ones_mod x 6 ltac:(lia)). Qed.

Lemma land_31 (x : Z) : Z.land x 31 = x mod 32.
Proof. exact (land_ones_mod x 5 ltac:(lia)). Qed.

Lemma land_15 (x : Z) : Z.land x 15 = x mod 16.
Proof. exact (land_ones_mod x 4 ltac:(lia)). Qed.

Lemma land_7 (x : Z) : Z.land x 7 = x mod 8.
Proof. exact (land_ones_mod x 3 ltac:(lia)). Qed.

Lemma shiftr_8 (x : Z) : Z.shiftr x 8 = x / 256.
Proof. rewrite Z.shiftr_div_pow2 by lia. reflexivity. Qed.

Lemma shiftl_8 (x : Z) : Z.shiftl x 8 = x * 256.
Proof. rewrite Z.shiftl_mul_pow2 by lia. reflexivity. Qed.

Lemma shiftl_6 (x : Z) : Z.shiftl x 6 = x * 64.
Proof. rewrite Z.shiftl_mul_pow2 by lia. reflexivity. Qed.

Lemma lor_256 (q b : Z) : 0 <= b < 256 -> Z.lor (q * 256) b = q * 256 + b.
Proof. intros H. exact (lor_low 8 q b ltac:(lia) H). Qed.

Lemma lor_64 (q b : Z) : 0 <= b < 64 -> Z.lor (q * 64) b = q * 64 + b.
Proof. intros H. exact (lor_low 6 q b ltac:(lia) H). Qed.

Lemma lor_128 (b : Z) : 0 <= b < 64 -> Z.lor 128 b = 128 + b.
Proof. intros H. exact (lor_low 6 2 b ltac:(lia) H). Qed.

(** [decodeLE] is the unsigned little-endian value wrapped to 32 signed
    bits. *)
Lemma decodeLE_unsigned (bytes : list byte) :
  decodeLE bytes = to_int32 (unsignedLE bytes).
Proof.
  induction bytes as [| b bytes IH]; [reflexivity |].
  change (decodeLE (b :: bytes))
    with (Z.lor (to_int32 (Z.shiftl (decodeLE bytes) 8)) (byte2Z b)).
  change (unsignedLE (b :: bytes)) with (byte2Z b + 256 * unsignedLE bytes).
  rewrite IH, shiftl_8. pose proof (byte2Z_range b) as Hb.
  set (u := unsignedLE bytes) in *.
  assert (Hq : exists q, to_int32 (to_int32 u * 256) = q * 256).
  { exists (to_int32 (to_int32 u * 256) / 256). unfold to_int32. lia. }
  destruct Hq as [q Hq]. rewrite Hq, lor_256 by assumption. rewrite <- Hq.
  unfold to_int32. lia.
Qed.

Lemma unsignedLE_range (bytes : list byte) :
  0 <= unsignedLE bytes < 256 ^ len bytes.
Proof.
  induction bytes as [| b bytes IH]; [cbn; lia |].
  change (unsignedLE (b :: bytes)) with (byte2Z b + 256 * unsignedLE bytes).
  unfold len in *. cbn [length]. rewrite Nat2Z.inj_succ, Z.pow_succ_r by lia.
  pose proof (byte2Z_range b). nia.
Qed.

Lemma unsignedLE_le_bytes (n : nat) (v : Z) :
  unsignedLE (le_bytes n v) = v mod 256 ^ Z.of_nat n.
Proof.
  revert v. induction n as [| n IH]; intros v.
  - cbn. now rewrite Z.mod_1_r.
  - cbn [le_bytes].
    change (unsignedLE (Z2byte (v mod 256) :: le_bytes n (v / 256)))
      with (byte2Z (Z2byte (v mod 256)) + 256 * unsignedLE (le_bytes n (v / 256))).
    rewrite IH, byte2Z_Z2byte, Nat2Z.inj_succ, Z.pow_succ_r by lia.
    rewrite Z.mod_mod by lia.
    rewrite (Z.rem_mul_r v 256 (256 ^ Z.of_nat n)) by lia. reflexivity.
Qed.

Lemma encodeLE_loop_le_bytes (n : nat) (v : Z) :
  encodeLE_loop v n = le_bytes n (to_int32 v).
Proof.
  revert v. induction n as [| n IH]; intros v; [reflexivity |].
  cbn [encodeLE_loop le_bytes]. rewrite land_255, shiftr_8, IH.
  f_equal. f_equal. apply to_int32_id. pose proof (to_int32_range v). lia.
Qed.

Lemma len_le_bytes (n : nat) (v : Z) : len (le_bytes n v) = Z.of_nat n.
Proof.
  unfold len. f_equal. revert v. induction n; intros v; cbn; [reflexivity | now rewrite IHn].
Qed.

(** Reading back what [encodeLE] wrote on 4 bytes. *)
Lemma decodeLE_encodeLE_4 (v : Z) : decodeLE (encodeLE_loop v 4) = to_int32 v.
Proof.
  rewrite decodeLE_unsigned, encodeLE_loop_le_bytes, unsignedLE_le_bytes.
  apply to_int32_eq_mod. change (256 ^ Z.of_nat 4) with (2 ^ 32).
  rewrite Z.mod_mod by lia. apply to_int32_mod.
Qed.

Lemma decodeLE_le_bytes_4 (v : Z) :
  0 <= v < 2 ^ 31 -> decodeLE (le_bytes 4 v) = v.
Proof.
  intros H. rewrite decodeLE_unsigned, unsignedLE_le_bytes.
  change (256 ^ Z.of_nat 4) with (2 ^ 32). unfold to_int32. lia.
Qed.

Lemma decodeLE_le_bytes_2 (v : Z) :
  0 <= v < 2 ^ 16 -> decodeLE (le_bytes 2 v) = v.
Proof.
  intros H. rewrite decodeLE_unsigned, unsignedLE_le_bytes.
  change (256 ^ Z.of_nat 2) with (2 ^ 16). unfold to_int32. lia.
Qed.

(** Lengths, reads and slices of concatenations. *)
Lemma len_nonneg {A} (l : list A) : 0 <= len l.
Proof. unfold len. lia. Qed.

Lemma len_app {A} (l1 l2 : list A) : len (l1 ++ l2) = len l1 + len l2.
Proof. unfold len. rewrite length_app. lia. Qed.

Lemma len_cons {A} (x : A) (l : list A) : len (x :: l) = 1 + len l.
Proof. unfold len. cbn [length]. lia. Qed.

Lemma len_nil {A} : len (@nil A) = 0.
Proof. reflexivity. Qed.

Lemma len_firstn {A} (n : nat) (l : list A) :
  len (firstn n l) = Z.min (Z.of_nat n) (len l).
Proof. unfold len. rewrite length_firstn. lia. Qed.

Lemma len_repeat {A} (x : A) (n : nat) : len (repeat x n) = Z.of_nat n.
Proof. unfold len. now rewrite repeat_length. Qed.

Lemma slice_middle {A} (data pre mid post : list A) (start end_ : Z) :
  data = pre ++ mid ++ post ->
  start = len pre ->
  end_ = start + len mid ->
  slice data start end_ = mid.
Proof.
  intros -> -> ->. unfold slice, relative_index.
  rewrite !len_app.
  pose proof (len_nonneg pre). pose proof (len_nonneg mid).
  pose proof (len_nonneg post).
  destruct (Z.ltb_spec (len pre) 0); [lia |].
  destruct (Z.ltb_spec (len pre + len mid) 0); [lia |].
  rewrite !Z.min_l by lia.
  replace (len pre + len mid - len pre) with (len mid) by lia.
  unfold len. rewrite !Nat2Z.id.
  rewrite skipn_app, skipn_all, Nat.sub_diag. cbn [skipn app].
  rewrite firstn_app, firstn_all, Nat.sub_diag. cbn [firstn]. apply app_nil_r.
Qed.

Lemma index_middle {A} (data pre post : list A) (x : A) (i : Z) :
  data = pre ++ x :: post -> i = len pre -> index data i = Some x.
Proof.
  intros -> ->. unfold index. pose proof (len_nonneg pre).
  destruct (Z.ltb_spec (len pre) 0); [lia |].
  unfold len. rewrite Nat2Z.id, nth_error_app2 by lia.
  now rewrite Nat.sub_diag.
Qed.

Lemma index_beyond {A} (data : list A) (i : Z) :
  len data <= i -> index data i = None.
Proof.
  intros H. unfold index. pose proof (len_nonneg data).
  destruct (Z.ltb_spec i 0); [reflexivity |].
  apply nth_error_None. unfold len in *. lia.
Qed.

Lemma string_eqb_eq (a b : jsstring) : string_eqb a b = true <-> a = b.
Proof.
  revert b. induction a as [| x a IH]; intros [| y b]; cbn; try (split; congruence).
  rewrite andb_true_iff, Z.eqb_eq, IH. split.
  - intros [-> ->]. reflexivity.
  - intros [= -> ->]. auto.
Qed.

Lemma string_eqb_refl (a : jsstring) : string_eqb a a = true.
Proof. now apply string_eqb_eq. Qed.

Lemma string_eqb_neq (a b : jsstring) : a <> b -> string_eqb a b = false.
Proof.
  intros H. destruct (string_eqb a b) eqn:E; [| reflexivity].
  apply string_eqb_eq in E. contradiction.
Qed.

(* ================================================================= *)
(** ** The text codec *)

(** Resolve the integer tests of the goal by case analysis, closing the
    impossible cases by arithmetic. *)
Ltac decide_test :=
  match goal with
  | |- context [Z.leb ?a ?b] => destruct (Z.leb_spec a b); try lia
  | |- context [Z.ltb ?a ?b] => destruct (Z.ltb_spec a b); try lia
  | |- context [Z.eqb ?a ?b] => destruct (Z.eqb_spec a b); try lia
  end.

Ltac decide_tests := repeat (decide_test; cbn [andb orb negb]).

(** The encoder, byte by byte. *)
Lemma utf8_encode_1 (c : Z) :
  c <= 0x7F -> utf8_encode_code_point c = [Z2byte c].
Proof. intros H. unfold utf8_encode_code_point. now decide_tests. Qed.

Lemma utf8_encode_2 (c : Z) :
  0x7F < c <= 0x7FF ->
  utf8_encode_code_point c = [Z2byte (192 + c / 64); Z2byte (128 + c mod 64)].
Proof.
  intros H. unfold utf8_encode_code_point. decide_tests.
  cbn [utf8_continuation Z.of_nat Pos.of_succ_nat Pos.succ Z.mul Pos.mul].
  rewrite !Z.shiftr_div_pow2 by lia. rewrite !land_63.
  rewrite lor_128 by lia.
  change (2 ^ 6) with 64. change (2 ^ 0) with 1. rewrite Z.div_1_r.
  f_equal. f_equal. lia.
Qed.

Lemma utf8_encode_3 (c : Z) :
  0x7FF < c <= 0xFFFF ->
  utf8_encode_code_point c =
    [Z2byte (224 + c / 4096); Z2byte (128 + (c / 64) mod 64);
     Z2byte (128 + c mod 64)].
Proof.
  intros H. unfold utf8_encode_code_point. decide_tests.
  cbn [utf8_continuation Z.of_nat Pos.of_succ_nat Pos.succ Z.mul Pos.mul].
  rewrite !Z.shiftr_div_pow2 by lia. rewrite !land_63.
  rewrite !lor_128 by lia.
  change (2 ^ 12) with 4096. change (2 ^ 6) with 64. change (2 ^ 0) with 1.
  rewrite Z.div_1_r. f_equal. f_equal. lia.
Qed.

Lemma utf8_encode_4 (c : Z) :
  0xFFFF < c ->
  utf8_encode_code_point c =
    [Z2byte (240 + c / 262144); Z2byte (128 + (c / 4096) mod 64);
     Z2byte (128 + (c / 64) mod 64); Z2byte (128 + c mod 64)].
Proof.
  intros H. unfold utf8_encode_code_point. decide_tests.
  cbn [utf8_continuation Z.of_nat Pos.of_succ_nat Pos.succ Z.mul Pos.mul].
  rewrite !Z.shiftr_div_pow2 by lia. rewrite !land_63.
  rewrite !lor_128 by lia.
  change (2 ^ 18) with 262144.
  change (2 ^ 12) with 4096. change (2 ^ 6) with 64. change (2 ^ 0) with 1.
  rewrite Z.div_1_r. f_equal. f_equal. lia.
Qed.

(** The decoder, one byte at a time. *)
Lemma utf8_decode_lead (b : byte) (rest : list byte) :
  utf8_decode_from utf8_initial (b :: rest) =
  utf8_resume (utf8_lead (byte2Z b)) (fun st => utf8_decode_from st rest).
Proof. reflexivity. Qed.

Lemma utf8_decode_continuation (st : utf8_state) (b : byte) (rest : list byte) :
  bytes_needed st <> 0 ->
  lower_boundary st <= byte2Z b <= upper_boundary st ->
  0x80 <= byte2Z b <= 0xBF ->
  utf8_decode_from st (b :: rest) =
    if bytes_seen st + 1 =? bytes_needed st
    then (64 * code_point st + (byte2Z b - 128))
           :: utf8_decode_from utf8_initial rest
    else utf8_decode_from
           (mk_utf8_state (64 * code_point st + (byte2Z b - 128))
              (bytes_seen st + 1) (bytes_needed st) 0x80 0xBF) rest.
Proof.
  intros Hn Hb Hc. cbn [utf8_decode_from].
  destruct (Z.eqb_spec (bytes_needed st) 0); [contradiction |].
  destruct (Z.ltb_spec (byte2Z b) (lower_boundary st)); [lia |].
  destruct (Z.ltb_spec (upper_boundary st) (byte2Z b)); [lia |].
  cbn [orb]. rewrite land_63, shiftl_6, lor_64 by lia.
  replace (code_point st * 64 + byte2Z b mod 64)
    with (64 * code_point st + (byte2Z b - 128)) by lia.
  reflexivity.
Qed.

(** Decoding the encoding of one scalar value gives it back and leaves
    the decoder in its initial state. *)
Lemma utf8_decode_encode_step (c : Z) (rest : list byte) :
  scalar_value c ->
  utf8_decode_from utf8_initial (utf8_encode_code_point c ++ rest) =
  c :: utf8_decode_from utf8_initial rest.
Proof.
  intros Hc.
  destruct (Z.le_gt_cases c 0x7F) as [H1 | H1].
  { rewrite utf8_encode_1 by assumption. cbn [app].
    rewrite utf8_decode_lead, byte2Z_Z2byte.
    assert (0 <= c) by (destruct Hc; lia).
    replace (c mod 256) with c by lia.
    unfold utf8_lead. decide_tests. reflexivity. }
  destruct (Z.le_gt_cases c 0x7FF) as [H2 | H2].
  { rewrite utf8_encode_2 by lia. cbn [app].
    rewrite utf8_decode_lead, byte2Z_Z2byte.
    replace ((192 + c / 64) mod 256) with (192 + c / 64) by lia.
    unfold utf8_lead. decide_tests. cbn [utf8_resume].
    rewrite utf8_decode_continuation;
      rewrite ?byte2Z_Z2byte; cbn [bytes_needed bytes_seen code_point
                                     lower_boundary upper_boundary];
      try lia.
    rewrite land_31. decide_tests. f_equal. lia. }
  destruct (Z.le_gt_cases c 0xFFFF) as [H3 | H3].
  { rewrite utf8_encode_3 by lia. cbn [app].
    rewrite utf8_decode_lead, byte2Z_Z2byte.
    replace ((224 + c / 4096) mod 256) with (224 + c / 4096) by lia.
    unfold utf8_lead. decide_tests; cbn [utf8_resume];
    (rewrite utf8_decode_continuation;
      rewrite ?byte2Z_Z2byte; cbn [bytes_needed bytes_seen code_point
                                     lower_boundary upper_boundary];
      [| lia | try (destruct Hc; lia) | lia ];
     decide_tests;
     rewrite utf8_decode_continuation;
      rewrite ?byte2Z_Z2byte; cbn [bytes_needed bytes_seen code_point
                                     lower_boundary upper_boundary];
      [| lia | lia | lia ];
     rewrite land_15; decide_tests; f_equal; lia). }
  { assert (c <= 0x10FFFF) by (destruct Hc; lia).
    rewrite utf8_encode_4 by lia. cbn [app].
    rewrite utf8_decode_lead, byte2Z_Z2byte.
    replace ((240 + c / 262144) mod 256) with (240 + c / 262144) by lia.
    unfold utf8_lead. decide_tests; cbn [utf8_resume];
    (rewrite utf8_decode_continuation;
      rewrite ?byte2Z_Z2byte; cbn [bytes_needed bytes_seen code_point
                                     lower_boundary upper_boundary];
      [| lia | lia | lia ];
     decide_tests;
     rewrite utf8_decode_continuation;
      rewrite ?byte2Z_Z2byte; cbn [bytes_needed bytes_seen code_point
                                     lower_boundary upper_boundary];
      [| lia | lia | lia ];
     decide_tests;
     rewrite utf8_decode_continuation;
      rewrite ?byte2Z_Z2byte; cbn [bytes_needed bytes_seen code_point
                                     lower_boundary upper_boundary];
      [| lia | lia | lia ];
     rewrite land_7; decide_tests; f_equal; lia). }
Qed.

Lemma utf8_decode_encode (cs : list Z) :
  Forall scalar_value cs ->
  utf8_decode_from utf8_initial (flat_map utf8_encode_code_point cs) = cs.
Proof.
  induction 1 as [| c cs Hc _ IH]; [reflexivity |].
  cbn [flat_map]. rewrite utf8_decode_encode_step by assumption.
  now rewrite IH.
Qed.

(** Strings are read one or two code units at a time. *)
Lemma jsstring_pair_ind (P : jsstring -> Prop) :
  P [] ->
  (forall c, P [c]) ->
  (forall c d s, P s -> P (d :: s) -> P (c :: d :: s)) ->
  forall s, P s.
Proof.
  intros Hnil Hone Hcons s.
  assert (H : P s /\ forall c, P (c :: s)).
  { induction s as [| d s [IHs IHc]].
    - split; [exact Hnil | exact Hone].
    - split; [apply IHc |]. intros c. apply Hcons; [exact IHs | apply IHc]. }
  exact (proj1 H).
Qed.

(** How the conversion to scalar values reads the front of a string. *)
Lemma to_scalar_values_cons_cases (c : Z) (rest : jsstring) :
  (exists x, to_scalar_values (c :: rest) = x :: to_scalar_values rest)
  \/ (exists d rest' x,
        rest = d :: rest' /\ 0xFFFF < x
        /\ to_scalar_values (c :: rest) = x :: to_scalar_values rest').
Proof.
  cbn [to_scalar_values].
  destruct (Z.ltb_spec c 0xD800); cbn [orb]; [left; eauto |].
  destruct (Z.ltb_spec 0xDFFF c); [left; eauto |].
  destruct (Z.leb_spec 0xDC00 c); [left; eauto |].
  destruct rest as [| d rest']; [left; eauto |].
  destruct (Z.leb_spec 0xDC00 d); cbn [andb]; [| left; eauto].
  destruct (Z.leb_spec d 0xDFFF); [| left; eauto].
  right. exists d, rest', (0x10000 + 0x400 * (c - 0xD800) + (d - 0xDC00)).
  split; [reflexivity |]. split; [lia | reflexivity].
Qed.

(** The front of a well-formed string: a code unit that is its own scalar
    value, or a surrogate pair. *)
Lemma well_formed_cons_inv (c : Z) (rest : jsstring) :
  well_formed (c :: rest) = true ->
  ((0 <= c < 0xD800 \/ 0xDFFF < c <= 0xFFFF)
   /\ well_formed rest = true
   /\ to_scalar_values (c :: rest) = c :: to_scalar_values rest)
  \/ (exists d rest',
        rest = d :: rest'
        /\ 0xD800 <= c < 0xDC00 /\ 0xDC00 <= d <= 0xDFFF
        /\ well_formed rest' = true
        /\ to_scalar_values (c :: rest) =
           (0x10000 + 0x400 * (c - 0xD800) + (d - 0xDC00))
             :: to_scalar_values rest').
Proof.
  cbn [well_formed to_scalar_values].
  destruct (Z.leb_spec 0 c); destruct (Z.ltb_spec c 0xD800);
    destruct (Z.ltb_spec 0xDFFF c); destruct (Z.leb_spec c 0xFFFF);
    destruct (Z.leb_spec 0xD800 c); destruct (Z.leb_spec 0xDC00 c);
    destruct (Z.ltb_spec c 0xDC00);
    cbn [andb orb]; try lia; try discriminate;
    try (intros Hwf; left; split; [lia | split; [exact Hwf | reflexivity]]).
  destruct rest as [| d rest']; [discriminate |].
  destruct (Z.leb_spec 0xDC00 d); destruct (Z.leb_spec d 0xDFFF);
    cbn [andb]; try discriminate.
  intros Hwf. right. exists d, rest'.
  repeat split; try lia; assumption.
Qed.

Lemma to_scalar_values_scalar (s : jsstring) :
  well_formed s = true -> Forall scalar_value (to_scalar_values s).
Proof.
  induction s as [| c | c d s IHs IHd] using jsstring_pair_ind; intros Hwf.
  - constructor.
  - destruct (well_formed_cons_inv _ _ Hwf)
      as [(Hc & _ & ->) | (d & rest' & [=] & _)].
    constructor; [unfold scalar_value; lia | constructor].
  - destruct (well_formed_cons_inv _ _ Hwf)
      as [(Hc & Hrest & ->) | (d' & rest' & [= <- <-] & Hc & Hd & Hrest & ->)].
    + constructor; [unfold scalar_value; lia | now apply IHd].
    + constructor; [unfold scalar_value; lia | now apply IHs].
Qed.

Lemma utf16_units_bmp (c : Z) : c <= 0xFFFF -> utf16_units c = [c].
Proof. intros H. unfold utf16_units. now decide_tests. Qed.

Lemma utf16_units_pair (c d : Z) :
  0xD800 <= c < 0xDC00 -> 0xDC00 <= d <= 0xDFFF ->
  utf16_units (0x10000 + 0x400 * (c - 0xD800) + (d - 0xDC00)) = [c; d].
Proof.
  intros Hc Hd. unfold utf16_units. decide_tests.
  f_equal; [lia | f_equal; lia].
Qed.

Lemma utf16_of_scalar_values (s : jsstring) :
  well_formed s = true -> flat_map utf16_units (to_scalar_values s) = s.
Proof.
  induction s as [| c | c d s IHs IHd] using jsstring_pair_ind; intros Hwf.
  - reflexivity.
  - destruct (well_formed_cons_inv _ _ Hwf)
      as [(Hc & _ & ->) | (d & rest' & [=] & _)].
    cbn [flat_map to_scalar_values]. rewrite utf16_units_bmp by lia. reflexivity.
  - destruct (well_formed_cons_inv _ _ Hwf)
      as [(Hc & Hrest & ->) | (d' & rest' & [= <- <-] & Hc & Hd & Hrest & ->)];
      cbn [flat_map].
    + rewrite utf16_units_bmp by lia. now rewrite IHd.
    + rewrite utf16_units_pair by lia. now rewrite IHs.
Qed.

Lemma strip_bom_scalar_values (s : jsstring) :
  well_formed s = true -> starts_with_bom s = false ->
  strip_bom (to_scalar_values s) = to_scalar_values s.
Proof.
  destruct s as [| c rest]; [reflexivity |]. intros Hwf Hb.
  cbn [starts_with_bom] in Hb. apply Z.eqb_neq in Hb.
  destruct (well_formed_cons_inv _ _ Hwf)
    as [(Hc & _ & ->) | (d & rest' & _ & Hc & Hd & _ & ->)];
    unfold strip_bom; decide_tests; reflexivity.
Qed.

(** Encoding a clean string and decoding the bytes returns the string. *)
Lemma decodeText_encodeText (s : jsstring) :
  clean_text s -> decodeText (encodeText s) = s.
Proof.
  intros [Hwf Hbom]. unfold decodeText, encodeText.
  rewrite utf8_decode_encode by (apply to_scalar_values_scalar; assumption).
  rewrite strip_bom_scalar_values by assumption.
  apply utf16_of_scalar_values. assumption.
Qed.

(** A string has at least as many UTF-8 bytes as UTF-16 code units. *)
Lemma len_utf8_encode_code_point (c : Z) :
  1 <= len (utf8_encode_code_point c)
  /\ (0xFFFF < c -> len (utf8_encode_code_point c) = 4).
Proof.
  destruct (Z.le_gt_cases c 0x7F); [rewrite utf8_encode_1 by lia; cbn; lia |].
  destruct (Z.le_gt_cases c 0x7FF); [rewrite utf8_encode_2 by lia; cbn; lia |].
  destruct (Z.le_gt_cases c 0xFFFF); [rewrite utf8_encode_3 by lia; cbn; lia |].
  rewrite utf8_encode_4 by lia; cbn; lia.
Qed.

Lemma len_encodeText_cons (c : Z) (cs : list Z) :
  len (flat_map utf8_encode_code_point (c :: cs)) =
  len (utf8_encode_code_point c) + len (flat_map utf8_encode_code_point cs).
Proof. cbn [flat_map]. apply len_app. Qed.

Lemma len_encodeText (s : jsstring) : len s <= len (encodeText s).
Proof.
  unfold encodeText.
  induction s as [| c | c d s IHs IHd] using jsstring_pair_ind.
  - cbn. lia.
  - destruct (to_scalar_values_cons_cases c [])
      as [[x ->] | (d & rest' & x & [=] & _)].
    rewrite len_encodeText_cons, !len_cons, !len_nil.
    pose proof (proj1 (len_utf8_encode_code_point x)).
    pose proof (len_nonneg (flat_map utf8_encode_code_point (to_scalar_values []))).
    lia.
  - destruct (to_scalar_values_cons_cases c (d :: s))
      as [[x ->] | (d' & rest' & x & [= <- <-] & Hx & ->)];
      rewrite len_encodeText_cons; rewrite !len_cons in *.
    + pose proof (proj1 (len_utf8_encode_code_point x)). lia.
    + rewrite (proj2 (len_utf8_encode_code_point x) Hx). lia.
Qed.

(* ================================================================= *)
(** ** Reading a container *)

(** Side conditions on the layout of a buffer: an equation between
    concatenations, or between lengths. *)
Ltac layout :=
  subst; unfold record_bytes; cbn [raw_path raw_flag raw_content];
  repeat rewrite <- app_assoc; cbn [app]; reflexivity.

Ltac lengths :=
  unfold record_bytes in *; cbn [raw_path raw_flag raw_content] in *;
  repeat rewrite ?len_app, ?len_cons, ?len_nil, ?len_le_bytes in *;
  try lia.

Lemma header_matches_app (rest : list byte) :
  header_matches (HEADER ++ rest) = true.
Proof. reflexivity. Qed.

Lemma strict_eq_some (a b : byte) :
  strict_eq (Some a) (Some b) = true -> a = b.
Proof. cbn. apply Byte.byte_dec_bl. Qed.

Lemma header_matches_inv (data : list byte) :
  header_matches data = true -> exists rest, data = HEADER ++ rest.
Proof.
  unfold header_matches. cbn [HEADER length seq forallb].
  destruct data as [| b0 [| b1 [| b2 [| b3 [| b4 [| b5 [| b6 rest]]]]]]];
    cbn [index Z.of_nat Z.ltb Z.compare Z.to_nat Pos.to_nat Pos.iter_op
           Nat.add nth_error Pos.of_succ_nat Pos.succ strict_eq andb];
    try discriminate;
    rewrite ?andb_false_r; try discriminate.
  rewrite !andb_true_iff.
  intros (H0 & H1 & H2 & H3 & H4 & H5 & H6 & _).
  apply Byte.byte_dec_bl in H0, H1, H2, H3, H4, H5, H6. subst.
  exists rest. reflexivity.
Qed.

Lemma len_record_bytes (r : RawRecord) :
  len (record_bytes r) = 7 + len (raw_path r) + len (raw_content r).
Proof. lengths. Qed.

(** One iteration of the entry loop, on a buffer that holds the record
    [r] at the current offset. *)
Lemma readEntry_record (data pre post : list byte) (r : RawRecord)
  (result : FileMap) :
  data = pre ++ record_bytes r ++ post ->
  len (raw_path r) < 2 ^ 16 ->
  len data < 2 ^ 31 ->
  readEntry data (len pre) result =
  Ok (len pre + len (record_bytes r),
      map_set result (fst (decoded_record r)) (snd (decoded_record r))).
Proof.
  intros Hdata Hpath Hlen.
  destruct r as [p f c]. cbn [raw_path raw_flag raw_content] in *.
  pose proof (len_nonneg pre). pose proof (len_nonneg post).
  pose proof (len_nonneg p). pose proof (len_nonneg c).
  assert (Hsize : len data = len pre + (7 + len p + len c) + len post)
    by (subst data; lengths).
  assert (Hpl : slice data (len pre) (len pre + 2) = le_bytes 2 (len p)).
  { apply slice_middle
      with (pre := pre) (post := le_bytes 4 (len c) ++ [f] ++ p ++ c ++ post);
      [layout | reflexivity | lengths]. }
  assert (Hcl : slice data (len pre + 2) (len pre + 2 + 4) = le_bytes 4 (len c)).
  { apply slice_middle
      with (pre := pre ++ le_bytes 2 (len p)) (post := [f] ++ p ++ c ++ post);
      [layout | lengths | lengths]. }
  assert (Hflag : index data (len pre + 2 + 4) = Some f).
  { apply index_middle
      with (pre := pre ++ le_bytes 2 (len p) ++ le_bytes 4 (len c))
           (post := p ++ c ++ post);
      [layout | lengths]. }
  assert (Hp : slice data (len pre + 2 + 4 + 1) (len pre + 2 + 4 + 1 + len p) = p).
  { apply slice_middle
      with (pre := pre ++ le_bytes 2 (len p) ++ le_bytes 4 (len c) ++ [f])
           (post := c ++ post);
      [layout | lengths | lengths]. }
  assert (Hc : slice data (len pre + 2 + 4 + 1 + len p)
                 (len pre + 2 + 4 + 1 + len p + len c) = c).
  { apply slice_middle
      with (pre := pre ++ le_bytes 2 (len p) ++ le_bytes 4 (len c) ++ [f] ++ p)
           (post := post);
      [layout | lengths | lengths]. }
  unfold readEntry. cbv zeta.
  rewrite Hpl, Hcl, Hflag.
  rewrite decodeLE_le_bytes_2 by lia. rewrite decodeLE_le_bytes_4 by lia.
  rewrite Hp, Hc. rewrite !Z.gtb_ltb.
  destruct (Z.ltb_spec (len data) (len pre + 7)); [lia |].
  destruct (Z.ltb_spec (len data) (len pre + 2 + 4 + 1 + len p + len c)); [lia |].
  unfold decoded_record. cbn [fst snd raw_path raw_flag raw_content strict_eq].
  rewrite len_record_bytes. cbn [raw_path raw_content].
  f_equal. f_equal. lia.
Qed.

Lemma readEntries_records (records : list RawRecord) :
  forall (data pre post : list byte) (result : FileMap),
    data = pre ++ flat_map record_bytes records ++ post ->
    Forall (fun r => len (raw_path r) < 2 ^ 16) records ->
    len data < 2 ^ 31 ->
    readEntries (length records) data (len pre) result =
    Ok (read_records records result).
Proof.
  induction records as [| r records IH]; intros data pre post result Hdata Hp Hlen.
  - reflexivity.
  - apply Forall_cons_iff in Hp. destruct Hp as [Hr Hrs].
    cbn [length readEntries flat_map] in *.
    rewrite (readEntry_record data pre (flat_map record_bytes records ++ post) r);
      [| subst data; now rewrite <- app_assoc | assumption | assumption].
    cbn [bind fst snd].
    rewrite <- len_app.
    apply IH with (post := post); [| assumption | assumption].
    subst data. now rewrite <- !app_assoc.
Qed.

(** Reading a container gives the records' bindings, set in order. *)
Lemma deserializeFileMap_container (records : list RawRecord) :
  Forall (fun r => len (raw_path r) < 2 ^ 16) records ->
  len (container records) < 2 ^ 31 ->
  deserializeFileMap (container records) = Ok (read_records records []).
Proof.
  intros Hp Hlen.
  set (body := flat_map record_bytes records).
  assert (Hc : container records =
               HEADER ++ le_bytes 4 (15 + len body)
                 ++ le_bytes 4 (len records) ++ body) by reflexivity.
  assert (Hsize : len (container records) = 15 + len body).
  { rewrite Hc. lengths. change (len HEADER) with 7. lia. }
  pose proof (len_nonneg body). pose proof (len_nonneg records).
  assert (Hn : len records <= len body).
  { subst body. clear. induction records as [| r records IH]; [cbn; lia |].
    cbn [flat_map]. rewrite len_app, len_cons, len_record_bytes.
    pose proof (len_nonneg (raw_path r)). pose proof (len_nonneg (raw_content r)).
    lia. }
  unfold deserializeFileMap.
  rewrite Hc at 1. rewrite header_matches_app. cbn [negb]. cbv zeta.
  change (len HEADER) with 7.
  rewrite !Z.gtb_ltb.
  destruct (Z.ltb_spec (len (container records)) (7 + 4)); [lia |].
  rewrite (slice_middle (container records) HEADER (le_bytes 4 (15 + len body))
             (le_bytes 4 (len records) ++ body));
    [| exact Hc | reflexivity | lengths].
  rewrite decodeLE_le_bytes_4 by lia.
  rewrite Hsize at 1. rewrite Z.eqb_refl. cbn [negb].
  destruct (Z.ltb_spec (len (container records)) (7 + 4 + 4)); [lia |].
  rewrite (slice_middle (container records) (HEADER ++ le_bytes 4 (15 + len body))
             (le_bytes 4 (len records)) body);
    [| rewrite Hc; now rewrite <- app_assoc
     | lengths; change (len HEADER) with 7; lia | lengths].
  rewrite decodeLE_le_bytes_4 by lia.
  replace (Z.to_nat (len records)) with (length records)
    by (unfold len; now rewrite Nat2Z.id).
  replace (7 + 4 + 4)
    with (len (HEADER ++ le_bytes 4 (15 + len body) ++ le_bytes 4 (len records)))
    by (lengths; change (len HEADER) with 7; lia).
  apply readEntries_records with (post := []); [| assumption | assumption].
  rewrite Hc. rewrite app_nil_r. now rewrite <- !app_assoc.
Qed.

(* ================================================================= *)
(** ** Writing a container *)

Lemma stored_content_size_from (entries : list Entry) (z : Z) :
  fold_left (fun sum e => sum + len (content e)) entries z =
  z + stored_content_size entries.
Proof.
  unfold stored_content_size. revert z.
  induction entries as [| e entries IH]; intros z; cbn [fold_left]; [lia |].
  rewrite IH, (IH (0 + _)). lia.
Qed.

Lemma stored_content_size_snoc (entries : list Entry) (e : Entry) :
  stored_content_size (entries ++ [e]) =
  stored_content_size entries + len (content e).
Proof.
  unfold stored_content_size. rewrite fold_left_app. reflexivity.
Qed.

Lemma collectEntries_ok (it : FileMap) :
  forall entries,
    Forall (fun e => len (fst e) <= 65535) it ->
    size_checks_pass it (stored_content_size entries) ->
    collectEntries it entries = Ok (entries ++ map entry_of it).
Proof.
  induction it as [| [p c] it IH]; intros entries Hp Hs.
  - cbn. now rewrite app_nil_r.
  - apply Forall_cons_iff in Hp. destruct Hp as [Hp Hps].
    cbn [fst] in Hp. destruct Hs as [Hs Hss].
    cbn [collectEntries]. rewrite !Z.gtb_ltb.
    destruct (Z.ltb_spec 65535 (len p)); [lia |].
    destruct (Z.ltb_spec 0xffffffff (stored_content_size entries + content_length c));
      [lia |].
    rewrite IH; [| assumption |].
    + rewrite <- app_assoc. destruct c; reflexivity.
    + rewrite stored_content_size_snoc. destruct c; exact Hss.
Qed.

Lemma content_length_le (c : Content) :
  content_length c <= len (content_bytes c).
Proof. destruct c; cbn; [apply len_encodeText | lia]. Qed.

Lemma encodeLE_nonneg (v : Z) (n : nat) :
  0 <= v -> encodeLE v n = Ok (encodeLE_loop v n).
Proof.
  intros H. unfold encodeLE. destruct (Z.ltb_spec v 0); [lia | reflexivity].
Qed.

Lemma serializeEntry_ok (e : Entry) : serializeEntry e = Ok (entry_record e).
Proof.
  unfold serializeEntry, entry_record.
  rewrite !encodeLE_nonneg by apply len_nonneg.
  cbn [bind concatUint8Arrays concat]. now rewrite app_nil_r.
Qed.

Lemma mapM_serializeEntry (entries : list Entry) :
  mapM serializeEntry entries = Ok (map entry_record entries).
Proof.
  induction entries as [| e entries IH]; [reflexivity |].
  cbn [mapM map]. rewrite serializeEntry_ok, IH. reflexivity.
Qed.

(** The buffer [serializeFileMap] returns once the first loop has
    accepted the map. *)
Lemma serializeFileMap_collected (m : FileMap) (entries : list Entry) :
  collectEntries m [] = Ok entries ->
  serializeFileMap m =
  Ok (HEADER
      ++ encodeLE_loop (15 + len (concat (map entry_record entries))) 4
      ++ encodeLE_loop (len entries) 4
      ++ concat (map entry_record entries)).
Proof.
  intros Hc. unfold serializeFileMap. rewrite Hc. cbn [bind].
  rewrite mapM_serializeEntry. cbn [bind]. unfold concatUint8Arrays.
  pose proof (len_nonneg (concat (map entry_record entries))).
  rewrite !encodeLE_nonneg by (change (len HEADER) with 7; try apply len_nonneg; lia).
  cbn [bind concat]. rewrite app_nil_r.
  change (len HEADER) with 7.
  replace (7 + 4 + 4 + len (concat (map entry_record entries)))
    with (15 + len (concat (map entry_record entries))) by lia.
  reflexivity.
Qed.

(** Whatever [serializeFileMap] returns starts with the header and its own
    length on four bytes. *)
Lemma serializeFileMap_shape (m : FileMap) (buf : list byte) :
  serializeFileMap m = Ok buf ->
  exists tail, buf = HEADER ++ encodeLE_loop (len buf) 4 ++ tail /\ 4 <= len tail.
Proof.
  intros H. destruct (collectEntries m []) as [entries | e] eqn:Hc.
  - rewrite (serializeFileMap_collected m entries Hc) in H.
    set (body := concat (map entry_record entries)) in *.
    assert (Hbuf : buf = HEADER ++ encodeLE_loop (15 + len body) 4
                          ++ encodeLE_loop (len entries) 4 ++ body)
      by congruence.
    clear H.
    assert (Hlen : len buf = 15 + len body).
    { rewrite Hbuf, !len_app. change (len HEADER) with 7.
      rewrite !encodeLE_loop_le_bytes, !len_le_bytes. lia. }
    exists (encodeLE_loop (len entries) 4 ++ body).
    rewrite Hlen. split; [exact Hbuf |].
    rewrite len_app, encodeLE_loop_le_bytes, len_le_bytes.
    pose proof (len_nonneg body). lia.
  - unfold serializeFileMap in H. rewrite Hc in H. discriminate.
Qed.

Lemma encodeLE_loop_small (n : nat) (v : Z) :
  0 <= v < 2 ^ 31 -> encodeLE_loop v n = le_bytes n v.
Proof.
  intros H. rewrite encodeLE_loop_le_bytes. f_equal. apply to_int32_id. lia.
Qed.

Lemma entry_record_raw (e : jsstring * Content) :
  len (encodeText (fst e)) < 2 ^ 31 ->
  len (content_bytes (snd e)) < 2 ^ 31 ->
  entry_record (entry_of e) = record_bytes (raw_of_entry e).
Proof.
  intros Hp Hc. unfold entry_record, record_bytes, entry_of, raw_of_entry.
  cbn [path isBinary content raw_path raw_flag raw_content].
  rewrite !encodeLE_loop_small by (split; [apply len_nonneg | assumption]).
  destruct (snd e); reflexivity.
Qed.

Lemma container_size_bounds (m : FileMap) :
  15 <= container_size m
  /\ len m <= container_size m
  /\ total_content_bytes m <= container_size m
  /\ Forall (fun e => len (encodeText (fst e)) < container_size m
                      /\ len (content_bytes (snd e)) < container_size m) m.
Proof.
  induction m as [| [p c] m (IH1 & IH2 & IH3 & IH4)].
  - cbn. repeat split; try lia. constructor.
  - cbn [container_size total_content_bytes fold_right fst snd].
    fold (container_size m). fold (total_content_bytes m).
    pose proof (len_nonneg (encodeText p)).
    pose proof (len_nonneg (content_bytes c)).
    rewrite len_cons. repeat split; try lia.
    constructor; [cbn [fst snd]; lia |].
    eapply Forall_impl; [| exact IH4]. cbn beta. intros e [? ?]. lia.
Qed.

Lemma body_of_entries (m : FileMap) :
  container_size m < 2 ^ 31 ->
  concat (map entry_record (map entry_of m)) =
  flat_map record_bytes (map raw_of_entry m)
  /\ 15 + len (flat_map record_bytes (map raw_of_entry m)) = container_size m.
Proof.
  induction m as [| e m IH]; intros Hsize; [split; reflexivity |].
  pose proof (container_size_bounds (e :: m)) as (_ & _ & _ & Hall).
  apply Forall_cons_iff in Hall. destruct Hall as [[He1 He2] _].
  cbn [container_size fold_right] in Hsize. fold (container_size m) in Hsize.
  pose proof (len_nonneg (encodeText (fst e))).
  pose proof (len_nonneg (content_bytes (snd e))).
  pose proof (container_size_bounds m) as (H15 & _).
  destruct IH as [IHa IHb]; [lia |].
  cbn [map concat flat_map]. rewrite entry_record_raw by lia. rewrite IHa.
  split; [reflexivity |].
  rewrite len_app, len_record_bytes.
  cbn [container_size fold_right raw_of_entry raw_path raw_content].
  fold (container_size m). lia.
Qed.

Lemma size_checks_of_total (it : FileMap) (stored : Z) :
  stored + total_content_bytes it <= 0xffffffff ->
  size_checks_pass it stored.
Proof.
  revert stored. induction it as [| [p c] it IH]; intros stored H; [exact I |].
  cbn [total_content_bytes fold_right snd] in H. fold (total_content_bytes it) in H.
  pose proof (content_length_le c).
  assert (0 <= total_content_bytes it).
  { clear. induction it as [| e it IH]; cbn [total_content_bytes fold_right]; [lia |].
    fold (total_content_bytes it). pose proof (len_nonneg (content_bytes (snd e))). lia. }
  split; [lia |]. apply IH. lia.
Qed.

(** On a map within the limits, [serializeFileMap] writes the container of
    the map's records. *)
Lemma serializeFileMap_container (m : FileMap) :
  Forall (fun e => len (encodeText (fst e)) <= 65535) m ->
  container_size m < 2 ^ 31 ->
  serializeFileMap m = Ok (container (map raw_of_entry m))
  /\ len (container (map raw_of_entry m)) = container_size m.
Proof.
  intros Hp Hsize.
  pose proof (container_size_bounds m) as (H15 & Hn & Htotal & _).
  pose proof (body_of_entries m Hsize) as [Hbody Hlen].
  assert (Hc : collectEntries m [] = Ok (map entry_of m)).
  { apply collectEntries_ok.
    - eapply Forall_impl; [| exact Hp]. cbn beta. intros e He.
      pose proof (len_encodeText (fst e)). unfold jsstring in *. lia.
    - apply size_checks_of_total. change (stored_content_size []) with 0. lia. }
  rewrite (serializeFileMap_collected m _ Hc), Hbody.
  pose proof (len_nonneg (flat_map record_bytes (map raw_of_entry m))).
  pose proof (len_nonneg m).
  assert (Hlm : len (map entry_of m) = len m) by (unfold len; now rewrite length_map).
  assert (Hlr : len (map raw_of_entry m) = len m) by (unfold len; now rewrite length_map).
  rewrite !encodeLE_loop_small by lia.
  unfold container. rewrite Hlm, Hlr. split; [reflexivity |].
  rewrite !len_app, !len_le_bytes. change (len HEADER) with 7. lia.
Qed.

(* ================================================================= *)
(** ** The map built by the reader *)

(** *** The map built by the reader *)

Lemma map_get_set (m : FileMap) (k key : jsstring) (v : Content) :
  map_get (map_set m k v) key =
  if string_eqb k key then Some v else map_get m key.
Proof.
  induction m as [| [k' v'] m IH]; cbn [map_set map_get].
  - reflexivity.
  - destruct (string_eqb k' k) eqn:Ek; cbn [map_get].
    + apply string_eqb_eq in Ek. subst k'.
      destruct (string_eqb k key); reflexivity.
    + destruct (string_eqb k' key) eqn:Ekey; [| exact IH].
      apply string_eqb_eq in Ekey. subst k'.
      destruct (string_eqb k key) eqn:Ek2; [| reflexivity].
      apply string_eqb_eq in Ek2. subst k.
      rewrite string_eqb_refl in Ek. discriminate.
Qed.

Lemma map_get_read_records (records : list RawRecord) :
  forall (result : FileMap) (key : jsstring),
    map_get (read_records records result) key =
    match last_binding key (map decoded_record records) with
    | Some v => Some v
    | None => map_get result key
    end.
Proof.
  unfold read_records.
  induction records as [| r records IH]; intros result key; [reflexivity |].
  cbn [fold_left map last_binding]. rewrite IH.
  destruct (decoded_record r) as [k v]. cbn [fst snd].
  destruct (last_binding key (map decoded_record records)); [reflexivity |].
  rewrite map_get_set. destruct (string_eqb k key); reflexivity.
Qed.

Lemma map_set_fresh (m : FileMap) (k : jsstring) (v : Content) :
  ~ In k (map fst m) -> map_set m k v = m ++ [(k, v)].
Proof.
  induction m as [| [k' v'] m IH]; intros Hk; [reflexivity |].
  cbn [map_set app]. cbn [map fst In] in Hk.
  rewrite string_eqb_neq by tauto. rewrite IH by tauto. reflexivity.
Qed.

Lemma fold_map_set_fresh (l : FileMap) :
  forall result : FileMap,
    NoDup (map fst (result ++ l)) ->
    fold_left (fun m e => map_set m (fst e) (snd e)) l result = result ++ l.
Proof.
  induction l as [| [k v] l IH]; intros result Hnd.
  - cbn. now rewrite app_nil_r.
  - cbn [fold_left fst snd].
    assert (Hfresh : ~ In k (map fst result)).
    { rewrite map_app in Hnd. cbn [map fst] in Hnd.
      apply NoDup_remove_2 in Hnd. rewrite in_app_iff in Hnd. tauto. }
    rewrite map_set_fresh by assumption.
    rewrite IH; rewrite <- app_assoc; [reflexivity | exact Hnd].
Qed.

Lemma decoded_record_raw_of_entry (e : jsstring * Content) :
  clean_text (fst e) -> clean_content (snd e) ->
  decoded_record (raw_of_entry e) = e.
Proof.
  destruct e as [p c]. cbn [fst snd]. intros Hp Hc.
  unfold decoded_record, raw_of_entry. cbn [fst snd raw_path raw_flag raw_content].
  rewrite decodeText_encodeText by assumption.
  destruct c as [s | b]; cbn [byte_eqb Byte.eqb content_bytes clean_content] in *.
  - rewrite decodeText_encodeText by assumption. reflexivity.
  - reflexivity.
Qed.

Lemma read_records_raw_of_entry (m : FileMap) :
  forall result : FileMap,
    Forall (fun e => clean_text (fst e) /\ clean_content (snd e)) m ->
    read_records (map raw_of_entry m) result =
    fold_left (fun m e => map_set m (fst e) (snd e)) m result.
Proof.
  unfold read_records.
  induction m as [| e m IH]; intros result Hclean; [reflexivity |].
  apply Forall_cons_iff in Hclean. destruct Hclean as [[Hp Hc] Hrest].
  cbn [map fold_left]. rewrite decoded_record_raw_of_entry by assumption.
  now apply IH.
Qed.

(* ================================================================= *)
(** ** Text with unpaired surrogates *)

Lemma to_scalar_values_unfold (c : Z) (rest : jsstring) :
  to_scalar_values (c :: rest) =
  if (c <? 0xD800) || (0xDFFF <? c) then c :: to_scalar_values rest
  else if 0xDC00 <=? c then 0xFFFD :: to_scalar_values rest
  else
    match rest with
    | [] => [0xFFFD]
    | d :: rest' =>
        if (0xDC00 <=? d) && (d <=? 0xDFFF)
        then (0x10000 + 0x400 * (c - 0xD800) + (d - 0xDC00))
               :: to_scalar_values rest'
        else 0xFFFD :: to_scalar_values rest
    end.
Proof. destruct rest; reflexivity. Qed.

Lemma to_scalar_values_single (c : Z) (rest : jsstring) :
  c < 0xD800 \/ 0xDFFF < c ->
  to_scalar_values (c :: rest) = c :: to_scalar_values rest.
Proof.
  intros H. rewrite to_scalar_values_unfold.
  destruct (Z.ltb_spec c 0xD800); cbn [orb]; [reflexivity |].
  destruct (Z.ltb_spec 0xDFFF c); [reflexivity | lia].
Qed.

Lemma to_scalar_values_pair (h l : Z) (rest : jsstring) :
  0xD800 <= h < 0xDC00 -> 0xDC00 <= l <= 0xDFFF ->
  to_scalar_values (h :: l :: rest) =
  (0x10000 + 0x400 * (h - 0xD800) + (l - 0xDC00)) :: to_scalar_values rest.
Proof.
  intros Hh Hl. rewrite to_scalar_values_unfold.
  destruct (Z.ltb_spec h 0xD800); [lia |].
  destruct (Z.ltb_spec 0xDFFF h); [lia |]. cbn [orb].
  destruct (Z.leb_spec 0xDC00 h); [lia |]. cbv iota beta.
  destruct (Z.leb_spec 0xDC00 l); [| lia].
  destruct (Z.leb_spec l 0xDFFF); [| lia]. reflexivity.
Qed.

Lemma to_scalar_values_head (c : Z) (rest : jsstring) :
  code_unit c ->
  exists x rest',
    to_scalar_values (c :: rest) = x :: to_scalar_values rest'
    /\ scalar_value x
    /\ (rest' = rest \/ exists d, rest = d :: rest')
    /\ (x = c \/ x = 0xFFFD \/ 0xFFFF < x).
Proof.
  unfold code_unit, scalar_value. intros Hc. rewrite to_scalar_values_unfold.
  destruct (Z.ltb_spec c 0xD800); cbn [orb];
    [exists c, rest; repeat split; auto; lia |].
  destruct (Z.ltb_spec 0xDFFF c);
    [exists c, rest; repeat split; auto; lia |].
  destruct (Z.leb_spec 0xDC00 c);
    [exists 0xFFFD, rest; repeat split; auto; lia |].
  destruct rest as [| d rest'].
  { exists 0xFFFD, []. repeat split; auto; lia. }
  destruct (Z.leb_spec 0xDC00 d); cbn [andb];
    [| exists 0xFFFD, (d :: rest'); repeat split; auto; lia].
  destruct (Z.leb_spec d 0xDFFF);
    [| exists 0xFFFD, (d :: rest'); repeat split; auto; lia].
  exists (0x10000 + 0x400 * (c - 0xD800) + (d - 0xDC00)), rest'.
  repeat split; try lia; eauto.
Qed.

Lemma to_scalar_values_code_units (s : jsstring) :
  Forall code_unit s -> Forall scalar_value (to_scalar_values s).
Proof.
  induction s as [| c | c d s IHs IHd] using jsstring_pair_ind; intros Hs.
  - constructor.
  - apply Forall_cons_iff in Hs. destruct Hs as [Hc _].
    destruct (to_scalar_values_head c [] Hc)
      as (x & rest' & -> & Hx & [-> | [d [=]]] & _).
    constructor; [assumption | constructor].
  - apply Forall_cons_iff in Hs. destruct Hs as [Hc Hds].
    destruct (to_scalar_values_head c (d :: s) Hc)
      as (x & rest' & -> & Hx & [-> | [d' [= <- <-]]] & _).
    + constructor; [assumption | now apply IHd].
    + apply Forall_cons_iff in Hds. destruct Hds as [_ Hss].
      constructor; [assumption | now apply IHs].
Qed.

Lemma utf16_units_supplementary (c : Z) :
  0xFFFF < c ->
  utf16_units c =
  [(c - 0x10000) / 0x400 + 0xD800; (c - 0x10000) mod 0x400 + 0xDC00].
Proof.
  intros H. unfold utf16_units. destruct (Z.leb_spec c 0xFFFF); [lia | reflexivity].
Qed.

Lemma to_scalar_values_utf16 (cs : list Z) :
  Forall scalar_value cs -> to_scalar_values (flat_map utf16_units cs) = cs.
Proof.
  induction 1 as [| c cs Hc _ IH]; [reflexivity |].
  cbn [flat_map]. unfold scalar_value in Hc.
  destruct (Z.le_gt_cases c 0xFFFF) as [Hb | Hb].
  - rewrite utf16_units_bmp by assumption. cbn [app].
    rewrite to_scalar_values_single by lia. now rewrite IH.
  - rewrite utf16_units_supplementary by assumption. cbn [app].
    rewrite to_scalar_values_pair by lia. rewrite IH. f_equal. lia.
Qed.

Lemma strip_bom_no_bom (s : jsstring) :
  Forall code_unit s -> starts_with_bom s = false ->
  strip_bom (to_scalar_values s) = to_scalar_values s.
Proof.
  destruct s as [| c rest]; [reflexivity |]. intros Hs Hb.
  apply Forall_cons_iff in Hs. destruct Hs as [Hc _].
  cbn [starts_with_bom] in Hb. apply Z.eqb_neq in Hb.
  destruct (to_scalar_values_head c rest Hc) as (x & rest' & -> & _ & _ & Hx).
  unfold strip_bom. destruct (Z.eqb_spec x 0xFEFF); [lia | reflexivity].
Qed.

(** Decoding the bytes of a string gives a string with the same bytes. *)
Lemma encodeText_decodeText_encodeText (s : jsstring) :
  Forall code_unit s -> starts_with_bom s = false ->
  encodeText (decodeText (encodeText s)) = encodeText s.
Proof.
  intros Hs Hb. unfold decodeText. unfold encodeText at 2.
  pose proof (to_scalar_values_code_units s Hs) as Hsc.
  rewrite utf8_decode_encode by assumption.
  rewrite strip_bom_no_bom by assumption.
  unfold encodeText. now rewrite to_scalar_values_utf16.
Qed.

(* ================================================================= *)
(** ** Containers of two gigabytes and more *)

(** A container of 2^31 bytes or more, as written by [serializeFileMap], is
    rejected by [deserializeFileMap]. *)
Lemma large_container_rejected (m : FileMap) (buf : list byte) :
  serializeFileMap m = Ok buf ->
  2 ^ 31 <= len buf < 2 ^ 32 ->
  deserializeFileMap buf = Throw CORRUPTED_DATA.
Proof.
  intros Hser Hlen.
  destruct (serializeFileMap_shape m buf Hser) as (tail & Hbuf & Htail).
  set (field := encodeLE_loop (len buf) 4) in *.
  assert (Hfield : len field = 4)
    by (unfold field; now rewrite encodeLE_loop_le_bytes, len_le_bytes).
  unfold deserializeFileMap. rewrite Hbuf at 1.
  rewrite header_matches_app. cbn [negb]. cbv zeta.
  change (len HEADER) with 7. rewrite !Z.gtb_ltb.
  destruct (Z.ltb_spec (len buf) (7 + 4)); [lia |].
  rewrite (slice_middle buf HEADER field tail);
    [| exact Hbuf | reflexivity | rewrite Hfield; reflexivity].
  unfold field. rewrite decodeLE_encodeLE_4.
  destruct (Z.eqb_spec (to_int32 (len buf)) (len buf)) as [E | E];
    [| reflexivity].
  exfalso. unfold to_int32 in E. lia.
Qed.

Lemma serializeFileMap_big_binary (n : nat) :
  Z.of_nat n <= 0xffffffff ->
  serializeFileMap (big_binary_map n) =
  Ok (HEADER ++ encodeLE_loop (23 + Z.of_nat n) 4 ++ [x01; x00; x00; x00]
      ++ [x01; x00] ++ encodeLE_loop (Z.of_nat n) 4 ++ [x01] ++ [x61]
      ++ repeat x00 n).
Proof.
  intros Hn.
  assert (Hc : collectEntries (big_binary_map n) [] =
               Ok [mk_entry [97] true (repeat x00 n)]).
  { apply (collectEntries_ok (big_binary_map n) []).
    - repeat constructor; cbn; lia.
    - unfold big_binary_map. cbn [size_checks_pass content_length].
      change (stored_content_size []) with 0. rewrite len_repeat. lia. }
  rewrite (serializeFileMap_collected _ _ Hc).
  cbn [map concat]. rewrite app_nil_r.
  set (e := mk_entry [97] true (repeat x00 n)).
  assert (He : entry_record e =
               [x01; x00] ++ encodeLE_loop (Z.of_nat n) 4 ++ [x01] ++ [x61]
               ++ repeat x00 n).
  { unfold entry_record, e. cbn [path content isBinary]. rewrite len_repeat.
    reflexivity. }
  assert (Hl : len (entry_record e) = 8 + Z.of_nat n).
  { rewrite He, !len_app, len_repeat, encodeLE_loop_le_bytes, len_le_bytes.
    change (len [x01; x00]) with 2. change (len [x01]) with 1.
    change (len [x61]) with 1. lia. }
  rewrite Hl, He. replace (15 + (8 + Z.of_nat n)) with (23 + Z.of_nat n) by lia.
  reflexivity.
Qed.

Lemma Ok_inj {A} (a b : A) : Ok a = Ok b -> a = b.
Proof. intros H. injection H as ->. reflexivity. Qed.

Lemma len_serialized_big_binary (n : nat) (buf : list byte) :
  serializeFileMap (big_binary_map n) = Ok buf ->
  Z.of_nat n <= 0xffffffff ->
  len buf = 23 + Z.of_nat n.
Proof.
  intros Hser Hn. rewrite serializeFileMap_big_binary in Hser by assumption.
  apply Ok_inj in Hser. rewrite <- Hser.
  rewrite !len_app, len_repeat, !encodeLE_loop_le_bytes, !len_le_bytes.
  change (len HEADER) with 7. change (len [x01; x00; x00; x00]) with 4.
  change (len [x01; x00]) with 2. change (len [x01]) with 1.
  change (len [x61]) with 1. lia.
Qed.

(** A map within the limits of C1 whose container is rejected on the way
    back: 2^31 bytes of binary content. *)
Lemma big_binary_roundtrip (z : Z) :
  2 ^ 31 - 23 <= z < 2 ^ 32 - 23 ->
  Forall (fun e => len (encodeText (fst e)) <= 65535) (big_binary_map (Z.to_nat z))
  /\ total_content_bytes (big_binary_map (Z.to_nat z)) = z
  /\ exists buf,
       serializeFileMap (big_binary_map (Z.to_nat z)) = Ok buf
       /\ deserializeFileMap buf = Throw CORRUPTED_DATA.
Proof.
  intros Hz. assert (H0 : 0 <= z) by lia.
  generalize (Z2Nat.id z H0). generalize (Z.to_nat z). intros n Hn.
  split; [repeat constructor; vm_compute; discriminate |].
  split.
  { unfold big_binary_map, total_content_bytes. cbn [fold_right snd content_bytes].
    rewrite len_repeat. lia. }
  destruct (serializeFileMap (big_binary_map n)) as [buf | e] eqn:Hser.
  - exists buf. split; [reflexivity |].
    apply (large_container_rejected (big_binary_map n)); [assumption |].
    rewrite (len_serialized_big_binary n buf Hser) by lia. lia.
  - rewrite serializeFileMap_big_binary in Hser by lia. discriminate.
Qed.

(** Cutting exactly 2^32 bytes off the container of 2^32 - 1 bytes of
    binary content leaves its first 22 bytes, which are read as a
    container with one empty entry. *)
Lemma big_binary_truncation (z : Z) :
  z = 2 ^ 32 - 1 ->
  exists buf,
    serializeFileMap (big_binary_map (Z.to_nat z)) = Ok buf
    /\ 0 < 2 ^ 32 <= len buf
    /\ deserializeFileMap (truncate buf (2 ^ 32)) = Ok [([], Binary [])].
Proof.
  intros Hz. assert (H0 : 0 <= z) by lia.
  generalize (Z2Nat.id z H0). generalize (Z.to_nat z). intros n Hn.
  eexists. split; [apply serializeFileMap_big_binary; lia |].
  match goal with |- context [len ?b] => set (buf := b) end.
  assert (Hlen : len buf = 2 ^ 32 + 22).
  { rewrite (len_serialized_big_binary n buf); [lia | | lia].
    apply serializeFileMap_big_binary. lia. }
  split; [lia |].
  unfold truncate. rewrite Hlen.
  replace (2 ^ 32 + 22 - 2 ^ 32) with 22 by lia.
  unfold buf. rewrite Hn, Hz.
  replace (encodeLE_loop (23 + (2 ^ 32 - 1)) 4) with [x16; x00; x00; x00]
    by (vm_compute; reflexivity).
  replace (encodeLE_loop (2 ^ 32 - 1) 4) with [xff; xff; xff; xff]
    by (vm_compute; reflexivity).
  reflexivity.
Qed.

(* ================================================================= *)
(** ** The claims *)

(** On clean maps the round trip returns the map itself. *)
Lemma roundtrip_clean_maps (m : FileMap) :
  NoDup (map fst m) ->
  Forall (fun e => clean_text (fst e) /\ clean_content (snd e)
                   /\ len (encodeText (fst e)) <= 65535) m ->
  container_size m < 2 ^ 31 ->
  exists buf, serializeFileMap m = Ok buf /\ deserializeFileMap buf = Ok m.
Proof.
  intros Hnd Hm Hsize.
  assert (Hp : Forall (fun e => len (encodeText (fst e)) <= 65535) m)
    by (eapply Forall_impl; [| exact Hm]; cbn beta; tauto).
  assert (Hclean : Forall (fun e => clean_text (fst e) /\ clean_content (snd e)) m)
    by (eapply Forall_impl; [| exact Hm]; cbn beta; tauto).
  destruct (serializeFileMap_container m Hp Hsize) as [Hser Hlen].
  exists (container (map raw_of_entry m)). split; [exact Hser |].
  rewrite deserializeFileMap_container.
  - rewrite read_records_raw_of_entry by assumption.
    rewrite fold_map_set_fresh by exact Hnd. reflexivity.
  - apply Forall_map. eapply Forall_impl; [| exact Hp]. cbn beta.
    intros e He. cbn [raw_of_entry raw_path]. lia.
  - lia.
Qed.

Example roundtrip_example_map :
  exists buf,
    serializeFileMap example_map = Ok buf
    /\ deserializeFileMap buf = Ok example_map.
Proof.
  apply roundtrip_clean_maps.
  - repeat constructor; cbn; intuition discriminate.
  - repeat constructor; vm_compute; congruence.
  - vm_compute. reflexivity.
Qed.

Lemma decoded_record_reread (e : jsstring * Content) :
  clean_text (fst e) -> decoded_record (raw_of_entry e) = reread e.
Proof.
  destruct e as [p c]. cbn [fst]. intros Hp.
  unfold decoded_record, raw_of_entry, reread.
  cbn [fst snd raw_path raw_flag raw_content].
  rewrite decodeText_encodeText by assumption.
  destruct c; reflexivity.
Qed.

Lemma read_records_reread (m : FileMap) :
  forall result : FileMap,
    Forall (fun e => clean_text (fst e)) m ->
    read_records (map raw_of_entry m) result =
    fold_left (fun m e => map_set m (fst e) (snd e)) (map reread m) result.
Proof.
  unfold read_records.
  induction m as [| e m IH]; intros result Hclean; [reflexivity |].
  apply Forall_cons_iff in Hclean. destruct Hclean as [Hp Hrest].
  cbn [map fold_left]. rewrite decoded_record_reread by assumption.
  now apply IH.
Qed.

Lemma stored_view_reread (e : jsstring * Content) :
  plain_content (snd e) -> stored_view (reread e) = stored_view e.
Proof.
  destruct e as [p [s | b]]; cbn [snd plain_content]; [| reflexivity].
  intros [Hs Hb]. unfold stored_view, reread. cbn [fst snd content_bytes].
  now rewrite encodeText_decodeText_encodeText.
Qed.

(** C1, as amended. For every map (keys pairwise distinct, as in any
    [Map]) whose paths are well-formed UTF-16, whose paths and text
    contents do not begin with U+FEFF, whose paths take at most 65535
    UTF-8 bytes and whose container is smaller than 2^31 bytes,
    [serializeFileMap] returns a buffer and [deserializeFileMap] of that
    buffer returns a map with the same paths, the same text/binary kinds
    and the same content bytes, in the same order. *)
Theorem roundtrip_within_limits (m : FileMap) :
  NoDup (map fst m) ->
  Forall (fun e => clean_text (fst e) /\ plain_content (snd e)
                   /\ len (encodeText (fst e)) <= 65535) m ->
  container_size m < 2 ^ 31 ->
  exists buf m',
    serializeFileMap m = Ok buf
    /\ deserializeFileMap buf = Ok m'
    /\ map stored_view m' = map stored_view m.
Proof.
  intros Hnd Hm Hsize.
  assert (Hp : Forall (fun e => len (encodeText (fst e)) <= 65535) m)
    by (eapply Forall_impl; [| exact Hm]; cbn beta; tauto).
  assert (Hclean : Forall (fun e => clean_text (fst e)) m)
    by (eapply Forall_impl; [| exact Hm]; cbn beta; tauto).
  destruct (serializeFileMap_container m Hp Hsize) as [Hser Hlen].
  exists (container (map raw_of_entry m)), (map reread m).
  split; [exact Hser |]. split.
  - rewrite deserializeFileMap_container.
    + rewrite read_records_reread by assumption.
      rewrite fold_map_set_fresh; [reflexivity |].
      cbn [app]. rewrite map_map. cbn [reread fst]. exact Hnd.
    + apply Forall_map. eapply Forall_impl; [| exact Hp]. cbn beta.
      intros e He. cbn [raw_of_entry raw_path]. lia.
    + lia.
  - rewrite map_map. apply map_ext_in. intros e He.
    apply stored_view_reread. rewrite Forall_forall in Hm.
    now apply (Hm e He).
Qed.

(** The round trip of [surrogate_text_map]. *)
Lemma roundtrip_within_limits_witness :
  exists buf m',
    serializeFileMap surrogate_text_map = Ok buf
    /\ deserializeFileMap buf = Ok m'
    /\ map stored_view m' = map stored_view surrogate_text_map.
Proof.
  apply (roundtrip_within_limits surrogate_text_map).
  - repeat constructor; cbn; intuition discriminate.
  - unfold code_unit. repeat constructor; try lia; vm_compute; congruence.
  - vm_compute. reflexivity.
Defined.

(** Three maps within the limits on path bytes and content bytes. The
    round trip changes a path that begins with U+FEFF and a path that
    holds an unpaired surrogate, and it fails on 2^31 bytes of binary
    content. *)
Lemma roundtrip_counterexample :
  (Forall (fun e => len (encodeText (fst e)) <= 65535) bom_map
   /\ total_content_bytes bom_map <= 2 ^ 32 - 1
   /\ exists buf,
        serializeFileMap bom_map = Ok buf
        /\ deserializeFileMap buf = Ok [([97], Binary [])]
        /\ deserializeFileMap buf <> Ok bom_map)
  /\ (Forall (fun e => len (encodeText (fst e)) <= 65535) surrogate_map
      /\ total_content_bytes surrogate_map <= 2 ^ 32 - 1
      /\ exists buf,
           serializeFileMap surrogate_map = Ok buf
           /\ deserializeFileMap buf = Ok [([0xFFFD], Binary [])]
           /\ deserializeFileMap buf <> Ok surrogate_map)
  /\ (Forall (fun e => len (encodeText (fst e)) <= 65535)
        (big_binary_map (Z.to_nat (2 ^ 31)))
      /\ total_content_bytes (big_binary_map (Z.to_nat (2 ^ 31))) <= 2 ^ 32 - 1
      /\ exists buf,
           serializeFileMap (big_binary_map (Z.to_nat (2 ^ 31))) = Ok buf
           /\ deserializeFileMap buf = Throw CORRUPTED_DATA).
Proof.
  split; [| split].
  - split; [repeat constructor; vm_compute; discriminate |].
    split; [vm_compute; discriminate |].
    eexists. split; [vm_compute; reflexivity |].
    split; [vm_compute; reflexivity | vm_compute; discriminate].
  - split; [repeat constructor; vm_compute; discriminate |].
    split; [vm_compute; discriminate |].
    eexists. split; [vm_compute; reflexivity |].
    split; [vm_compute; reflexivity | vm_compute; discriminate].
  - destruct (big_binary_roundtrip (2 ^ 31)) as (Hp & Ht & Hbuf); [lia |].
    split; [exact Hp |]. split; [rewrite Ht; clear; lia | exact Hbuf].
Qed.

(** C4. Serializing the empty map gives exactly 15 bytes: the 7-byte
    magic header, the little-endian field 15 ([totalLength]) and the
    little-endian field 0 ([entryCount]), with no record; deserializing
    these bytes gives the empty map. *)
Theorem empty_collection :
  serializeFileMap [] =
    Ok (HEADER ++ [x0f; x00; x00; x00] ++ [x00; x00; x00; x00])
  /\ len (HEADER ++ [x0f; x00; x00; x00] ++ [x00; x00; x00; x00]) = 15
  /\ len HEADER = 7
  /\ unsignedLE [x0f; x00; x00; x00] = 15
  /\ unsignedLE [x00; x00; x00; x00] = 0
  /\ deserializeFileMap
       (HEADER ++ [x0f; x00; x00; x00] ++ [x00; x00; x00; x00]) = Ok [].
Proof. repeat split; vm_compute; reflexivity. Qed.

(** *** Header *)

Lemma header_matches_firstn (data : list byte) :
  header_matches data = true <-> firstn 7 data = HEADER.
Proof.
  split.
  - intros H. destruct (header_matches_inv data H) as [rest ->]. reflexivity.
  - intros H. rewrite <- (firstn_skipn 7 data), H. apply header_matches_app.
Qed.

Lemma deserializeFileMap_bad_header (data : list byte) :
  firstn 7 data <> HEADER -> deserializeFileMap data = Throw INVALID_HEADER.
Proof.
  intros H. unfold deserializeFileMap.
  destruct (header_matches data) eqn:E; [| reflexivity].
  apply header_matches_firstn in E. contradiction.
Qed.

Lemma set_byte_header (rest : list byte) (i : nat) (b : byte) :
  (i < 7)%nat ->
  nth_error (HEADER ++ rest) i <> Some b ->
  firstn 7 (set_byte (HEADER ++ rest) i b) <> HEADER.
Proof.
  intros Hi Hb.
  do 7 (destruct i as [| i];
        [cbn in Hb |- *; intros [= E]; apply Hb; now rewrite E |]).
  lia.
Qed.

(** C5. Whenever the first 7 bytes of a buffer differ from the magic
    header, and so whenever the buffer has fewer than 7 bytes,
    [deserializeFileMap] fails with [INVALID_HEADER]; in particular it does
    so on a buffer returned by [serializeFileMap] in which one of the first
    7 bytes has been replaced by a different value. *)
Theorem header_corruption :
  (forall data : list byte,
      firstn 7 data <> HEADER ->
      deserializeFileMap data = Throw INVALID_HEADER)
  /\ (forall data : list byte,
        len data < 7 ->
        deserializeFileMap data = Throw INVALID_HEADER)
  /\ (forall (m : FileMap) (buf : list byte) (i : nat) (b : byte),
        serializeFileMap m = Ok buf ->
        (i < 7)%nat ->
        nth_error buf i <> Some b ->
        deserializeFileMap (set_byte buf i b) = Throw INVALID_HEADER).
Proof.
  split; [exact deserializeFileMap_bad_header |]. split.
  { intros data Hlen. apply deserializeFileMap_bad_header. intros Hh.
    assert (len (firstn 7 data) = 7) by now rewrite Hh.
    rewrite len_firstn in *. lia. }
  intros m buf i b Hser Hi Hb.
  destruct (serializeFileMap_shape m buf Hser) as (tail & Hbuf & _).
  apply deserializeFileMap_bad_header.
  rewrite Hbuf in Hb |- *. now apply set_byte_header.
Qed.

(** A wrong seventh byte, a three-byte buffer, and the empty container
    with its fourth byte changed. *)
Lemma header_corruption_witness :
  deserializeFileMap [x73; x71; x75; x69; x72; x70; x01; x0f] = Throw INVALID_HEADER
  /\ deserializeFileMap [x73; x71; x75] = Throw INVALID_HEADER
  /\ deserializeFileMap
       (set_byte (HEADER ++ [x0f; x00; x00; x00] ++ [x00; x00; x00; x00]) 3 x72)
     = Throw INVALID_HEADER.
Proof.
  split; [| split].
  - apply (proj1 header_corruption). vm_compute. discriminate.
  - apply (proj1 (proj2 header_corruption)). vm_compute. reflexivity.
  - apply (proj2 (proj2 header_corruption) [] _ 3%nat x72).
    + vm_compute. reflexivity.
    + lia.
    + vm_compute. discriminate.
Defined.



Lemma last_binding_absent (l : list (jsstring * Content)) (k : jsstring) :
  Forall (fun e => fst e <> k) l -> last_binding k l = None.
Proof.
  induction 1 as [| [k' v'] l Hk _ IH]; [reflexivity |].
  cbn [last_binding]. rewrite IH. cbn [fst] in Hk.
  now rewrite string_eqb_neq.
Qed.

Lemma last_binding_unshadowed (before after : list (jsstring * Content))
  (k : jsstring) (v : Content) :
  Forall (fun e => fst e <> k) after ->
  last_binding k (before ++ (k, v) :: after) = Some v.
Proof.
  intros Hafter. induction before as [| [k' v'] before IH]; cbn [app last_binding].
  - rewrite (last_binding_absent after k Hafter). now rewrite string_eqb_refl.
  - now rewrite IH.
Qed.

(** C9. Any record of a container, wherever it stands, as long as no
    later record carries the same path: when its flag byte is not 1 (0, or
    2 to 255) the map binds the record's path to the text decoded from its
    content bytes, so that content bytes that are the UTF-8 encoding of a
    well-formed text without a leading U+FEFF give that very text; when
    the flag byte is 1 the map binds the path to the raw content bytes. *)
Theorem flag_byte_selects_binary_only_for_1
  (before after : list RawRecord) (pathBytes contentBytes : list byte)
  (flag : byte) :
  Forall (fun r => len (raw_path r) < 2 ^ 16) before ->
  len pathBytes < 2 ^ 16 ->
  Forall (fun r => len (raw_path r) < 2 ^ 16) after ->
  len (container (before ++ mk_raw pathBytes flag contentBytes :: after))
    < 2 ^ 31 ->
  Forall (fun r => decodeText (raw_path r) <> decodeText pathBytes) after ->
  exists m,
    deserializeFileMap
      (container (before ++ mk_raw pathBytes flag contentBytes :: after)) = Ok m
    /\ (flag <> x01 ->
        map_get m (decodeText pathBytes) = Some (Text (decodeText contentBytes)))
    /\ (flag <> x01 ->
        forall text,
          clean_text text -> contentBytes = encodeText text ->
          map_get m (decodeText pathBytes) = Some (Text text))
    /\ (flag = x01 ->
        map_get m (decodeText pathBytes) = Some (Binary contentBytes)).
Proof.
  intros Hbefore Hpath Hafter Hlen Hlater.
  set (r := mk_raw pathBytes flag contentBytes) in *.
  exists (read_records (before ++ r :: after) []).
  split.
  - apply deserializeFileMap_container; [| assumption].
    apply Forall_app. split; [assumption |]. now constructor.
  - assert (Hget : map_get (read_records (before ++ r :: after) [])
                     (decodeText pathBytes)
                   = Some (snd (decoded_record r))).
    { rewrite map_get_read_records, map_app. cbn [map].
      change (decoded_record r)
        with (decodeText pathBytes, snd (decoded_record r)) at 1.
      rewrite last_binding_unshadowed; [reflexivity |]. apply Forall_map.
      eapply Forall_impl; [| exact Hlater]. intros r' Hr'. exact Hr'. }
    rewrite Hget. unfold decoded_record, r, byte_eqb.
    cbn [snd raw_flag raw_content].
    assert (Htext : flag <> x01 -> Byte.eqb flag x01 = false).
    { intros Hf. destruct (Byte.eqb flag x01) eqn:E; [| reflexivity].
      apply Byte.byte_dec_bl in E. contradiction. }
    split; [| split].
    + intros Hf. now rewrite (Htext Hf).
    + intros Hf text Hclean ->. rewrite (Htext Hf).
      now rewrite decodeText_encodeText.
    + intros ->. reflexivity.
Qed.

(** A record with flag byte 2 between a text record and two further
    records, one of them with flag byte 255. *)
Lemma flag_byte_witness :
  exists m,
    deserializeFileMap
      (container ([mk_raw [x62] x00 [x31]]
                  ++ mk_raw [x61] x02 [x68; x69]
                  :: [mk_raw [x63] x01 [x00]; mk_raw [x64] xff []])) = Ok m
    /\ (x02 <> x01 ->
        map_get m (decodeText [x61]) = Some (Text (decodeText [x68; x69])))
    /\ (x02 <> x01 ->
        forall text,
          clean_text text -> [x68; x69] = encodeText text ->
          map_get m (decodeText [x61]) = Some (Text text))
    /\ (x02 = x01 ->
        map_get m (decodeText [x61]) = Some (Binary [x68; x69])).
Proof.
  apply (flag_byte_selects_binary_only_for_1
           [mk_raw [x62] x00 [x31]]
           [mk_raw [x63] x01 [x00]; mk_raw [x64] xff []]
           [x61] [x68; x69] x02).
  - repeat constructor.
  - vm_compute. reflexivity.
  - repeat constructor.
  - vm_compute. reflexivity.
  - repeat constructor; vm_compute; discriminate.
Defined.

(** *** Truncation *)

Lemma len_truncate (data : list byte) (k : Z) :
  0 < k <= len data -> len (truncate data k) = len data - k.
Proof.
  intros H. unfold truncate. rewrite len_firstn. lia.
Qed.

Lemma firstn_app_long {A} (n : nat) (l1 l2 : list A) :
  (length l1 <= n)%nat ->
  firstn n (l1 ++ l2) = l1 ++ firstn (n - length l1) l2.
Proof.
  intros H. rewrite firstn_app. f_equal. apply firstn_all2. exact H.
Qed.

(** C3, as amended. Removing [k] trailing bytes, [0 < k < 2^32], from a
    buffer returned by [serializeFileMap] makes [deserializeFileMap] fail:
    with [INVALID_HEADER] when fewer than 7 bytes remain, with
    [UNEXPECTED_END] when 7 to 10 bytes remain, and with [CORRUPTED_DATA]
    when 11 bytes or more remain. No map is ever returned. *)
Theorem truncation_rejected (m : FileMap) (buf : list byte) (k : Z) :
  serializeFileMap m = Ok buf ->
  0 < k <= len buf ->
  k < 2 ^ 32 ->
  deserializeFileMap (truncate buf k) =
  Throw (if len buf - k <? 7 then INVALID_HEADER
         else if len buf - k <? 11 then UNEXPECTED_END
         else CORRUPTED_DATA).
Proof.
  intros Hser Hk Hk32.
  destruct (serializeFileMap_shape m buf Hser) as (tail & Hbuf & Htail).
  pose proof (len_truncate buf k Hk) as Hlen.
  set (field := encodeLE_loop (len buf) 4) in *.
  assert (Hfield : len field = 4)
    by (unfold field; now rewrite encodeLE_loop_le_bytes, len_le_bytes).
  destruct (Z.ltb_spec (len buf - k) 7) as [H7 | H7].
  { apply deserializeFileMap_bad_header. intros Hh.
    assert (len (firstn 7 (truncate buf k)) = 7) by now rewrite Hh.
    rewrite len_firstn in *. lia. }
  assert (Hdata : truncate buf k =
                  HEADER ++ firstn (Z.to_nat (len buf - k) - 7) (field ++ tail)).
  { unfold truncate. rewrite Hbuf at 2.
    rewrite firstn_app_long by (cbn [HEADER length]; lia). reflexivity. }
  unfold deserializeFileMap. rewrite Hdata at 1.
  rewrite header_matches_app. cbn [negb]. cbv zeta.
  change (len HEADER) with 7. rewrite !Z.gtb_ltb, Hlen.
  destruct (Z.ltb_spec (len buf - k) 11) as [H11 | H11].
  { destruct (Z.ltb_spec (len buf - k) (7 + 4)); [reflexivity | lia]. }
  destruct (Z.ltb_spec (len buf - k) (7 + 4)); [lia |].
  assert (Hdata' : truncate buf k =
                   HEADER ++ field
                     ++ firstn (Z.to_nat (len buf - k) - 7 - 4) tail).
  { rewrite Hdata. f_equal. apply firstn_app_long. unfold len in Hfield. lia. }
  rewrite (slice_middle (truncate buf k) HEADER field
             (firstn (Z.to_nat (len buf - k) - 7 - 4) tail));
    [| exact Hdata' | reflexivity | rewrite Hfield; reflexivity].
  unfold field. rewrite decodeLE_encodeLE_4.
  destruct (Z.eqb_spec (to_int32 (len buf)) (len buf - k)) as [E | E];
    [| reflexivity].
  exfalso. unfold to_int32 in E. lia.
Qed.

(** The empty container without its last two bytes. *)
Lemma truncation_rejected_witness :
  deserializeFileMap
    (truncate (HEADER ++ [x0f; x00; x00; x00] ++ [x00; x00; x00; x00]) 2)
  = Throw CORRUPTED_DATA.
Proof.
  refine (eq_trans (truncation_rejected [] _ 2 _ _ _) _).
  - vm_compute. reflexivity.
  - vm_compute. split; [reflexivity | discriminate].
  - lia.
  - vm_compute. reflexivity.
Defined.

(** The empty container without its last nine bytes: six bytes remain and
    the failure is [INVALID_HEADER]. The container of 2^32 - 1 bytes of
    binary content without its last 2^32 bytes: 22 bytes remain and a map
    is returned. *)
Lemma truncation_counterexample :
  (exists buf,
      serializeFileMap [] = Ok buf
      /\ 0 < 9 <= len buf
      /\ deserializeFileMap (truncate buf 9) = Throw INVALID_HEADER)
  /\ (exists buf,
        serializeFileMap (big_binary_map (Z.to_nat (2 ^ 32 - 1))) = Ok buf
        /\ 0 < 2 ^ 32 <= len buf
        /\ deserializeFileMap (truncate buf (2 ^ 32)) = Ok [([], Binary [])]).
Proof.
  split.
  - eexists. split; [vm_compute; reflexivity |].
    split; [vm_compute; split; [reflexivity | discriminate] |].
    vm_compute. reflexivity.
  - apply big_binary_truncation. reflexivity.
Qed.

(** *** Lengths of 2^31 bytes and more *)

Lemma len_slice_7_11 (data : list byte) : len (slice data 7 11) <= 4.
Proof.
  unfold slice, relative_index. cbn [Z.ltb Z.compare].
  rewrite len_firstn. lia.
Qed.

Lemma unsignedLE_lt_2_32 (bytes : list byte) :
  len bytes <= 4 -> 0 <= unsignedLE bytes < 2 ^ 32.
Proof.
  intros H. pose proof (unsignedLE_range bytes) as [H0 H1].
  pose proof (len_nonneg bytes).
  split; [assumption |].
  apply Z.lt_le_trans with (256 ^ len bytes); [assumption |].
  change (2 ^ 32) with (256 ^ 4). apply Z.pow_le_mono_r; lia.
Qed.

(** C10. [decodeLE] is negative on every 4-byte field whose unsigned
    value is at least 2^31; hence every buffer that reaches the
    [totalLength] check (it begins with the magic header), is at least
    2^31 bytes long and whose [totalLength] field holds its actual length
    is rejected with [CORRUPTED_DATA]. *)
Theorem signed_decodeLE_rejects_large_buffers :
  (forall b0 b1 b2 b3 : byte,
      2 ^ 31 <= unsignedLE [b0; b1; b2; b3] ->
      decodeLE [b0; b1; b2; b3] < 0)
  /\ (forall data : list byte,
        firstn 7 data = HEADER ->
        2 ^ 31 <= len data ->
        unsignedLE (slice data 7 11) = len data ->
        deserializeFileMap data = Throw CORRUPTED_DATA).
Proof.
  split.
  - intros b0 b1 b2 b3 H. rewrite decodeLE_unsigned.
    pose proof (unsignedLE_lt_2_32 [b0; b1; b2; b3]) as Hr.
    unfold to_int32. cbn [len length Z.of_nat] in Hr. lia.
  - intros data Hh Hlen Hfield.
    pose proof (unsignedLE_lt_2_32 _ (len_slice_7_11 data)) as Hr.
    unfold deserializeFileMap.
    rewrite (proj2 (header_matches_firstn data) Hh). cbn [negb]. cbv zeta.
    change (len HEADER) with 7. rewrite !Z.gtb_ltb.
    destruct (Z.ltb_spec (len data) (7 + 4)); [lia |].
    change (7 + 4) with 11. rewrite decodeLE_unsigned, Hfield.
    destruct (Z.eqb_spec (to_int32 (len data)) (len data)) as [E | E];
      [| reflexivity].
    exfalso. unfold to_int32 in E. lia.
Qed.

Lemma two_gigabytes_facts (z : Z) :
  0 <= z ->
  firstn 7 (two_gigabytes (Z.to_nat z)) = HEADER
  /\ len (two_gigabytes (Z.to_nat z)) = 11 + z
  /\ slice (two_gigabytes (Z.to_nat z)) 7 11 = [x00; x00; x00; x80].
Proof.
  intros Hz. generalize (Z2Nat.id z Hz). generalize (Z.to_nat z).
  intros n Hn. split; [reflexivity |]. split.
  - unfold two_gigabytes. rewrite !len_app, len_repeat.
    change (len HEADER) with 7. change (len [x00; x00; x00; x80]) with 4. lia.
  - apply slice_middle with (pre := HEADER) (post := repeat x00 n);
      reflexivity.
Qed.

(** A buffer of exactly 2^31 bytes with a valid header and a correct
    [totalLength] field. *)
Lemma signed_decodeLE_witness :
  decodeLE [x00; x00; x00; x80] < 0
  /\ deserializeFileMap (two_gigabytes (Z.to_nat (2 ^ 31 - 11)))
     = Throw CORRUPTED_DATA.
Proof.
  destruct (two_gigabytes_facts (2 ^ 31 - 11)) as (Hh & Hl & Hs); [lia |].
  split.
  - apply (proj1 signed_decodeLE_rejects_large_buffers). vm_compute. discriminate.
  - apply (proj2 signed_decodeLE_rejects_large_buffers).
    + exact Hh.
    + rewrite Hl. clear. lia.
    + rewrite Hs, Hl. reflexivity.
Defined.

(** *** The limits checked by the first loop *)

Lemma collectEntries_throws (it : FileMap) :
  forall entries e,
    collectEntries it entries = Throw e ->
    (e = PATH_TOO_LONG /\ Exists (fun b => 65535 < len (fst b)) it)
    \/ (e = CONTENT_TOO_LARGE /\ ~ size_checks_pass it (stored_content_size entries)).
Proof.
  induction it as [| [p c] it IH]; intros entries e H; [discriminate |].
  cbn [collectEntries] in H. rewrite !Z.gtb_ltb in H.
  destruct (Z.ltb_spec 65535 (len p)) as [Hp | Hp].
  { left. injection H as <-. split; [reflexivity |]. now constructor. }
  destruct (Z.ltb_spec 0xffffffff (stored_content_size entries + content_length c))
    as [Hs | Hs].
  { right. injection H as <-. split; [reflexivity |]. cbn. lia. }
  apply IH in H. destruct H as [[-> Hex] | [-> Hn]].
  - left. split; [reflexivity |]. now apply Exists_cons_tl.
  - right. split; [reflexivity |]. intros [_ Hpass]. apply Hn.
    rewrite stored_content_size_snoc. destruct c; exact Hpass.
Qed.

Lemma serializeFileMap_throws (m : FileMap) (e : SqurpErrorCode) :
  serializeFileMap m = Throw e -> collectEntries m [] = Throw e.
Proof.
  intros H. destruct (collectEntries m []) as [entries | e'] eqn:Hc.
  - rewrite (serializeFileMap_collected m entries Hc) in H. discriminate.
  - unfold serializeFileMap in H. rewrite Hc in H. cbn [bind] in H.
    injection H as ->. reflexivity.
Qed.

(** Paths within 65535 UTF-8 bytes never raise [PATH_TOO_LONG]. *)
Lemma short_paths_accepted (m : FileMap) :
  Forall (fun e => len (encodeText (fst e)) <= 65535) m ->
  serializeFileMap m <> Throw PATH_TOO_LONG.
Proof.
  intros Hp H. apply serializeFileMap_throws, collectEntries_throws in H.
  destruct H as [[_ Hex] | [[=] _]].
  apply Exists_exists in Hex. destruct Hex as (e & Hin & Hlen).
  rewrite Forall_forall in Hp. specialize (Hp e Hin).
  pose proof (len_encodeText (fst e)). unfold jsstring in *. lia.
Qed.

(** A content total within 2^32 - 1 bytes never raises
    [CONTENT_TOO_LARGE]. *)
Lemma content_within_limit_accepted (m : FileMap) :
  total_content_bytes m <= 0xffffffff ->
  serializeFileMap m <> Throw CONTENT_TOO_LARGE.
Proof.
  intros Ht H. apply serializeFileMap_throws, collectEntries_throws in H.
  destruct H as [[[=] _] | [_ Hn]].
  apply Hn. apply size_checks_of_total. change (stored_content_size []) with 0. lia.
Qed.

Lemma len_encodeText_cjk_path (n : nat) :
  len (encodeText (cjk_path n)) = 3 * Z.of_nat n.
Proof.
  unfold encodeText, cjk_path. induction n as [| n IH]; [reflexivity |].
  change (to_scalar_values (repeat 0x65E5 (S n)))
    with (0x65E5 :: to_scalar_values (repeat 0x65E5 n)).
  rewrite len_encodeText_cons, IH.
  change (len (utf8_encode_code_point 0x65E5)) with 3. lia.
Qed.

Lemma serializeFileMap_cjk_path (z : Z) :
  0 <= z <= 65535 ->
  len (encodeText (cjk_path (Z.to_nat z))) = 3 * z
  /\ exists tail,
       serializeFileMap [(cjk_path (Z.to_nat z), Text [])] =
       Ok (HEADER ++ le_bytes 4 (22 + 3 * z) ++ le_bytes 4 1
           ++ encodeLE_loop (3 * z) 2 ++ tail).
Proof.
  intros Hz. generalize (Z2Nat.id z (proj1 Hz)). generalize (Z.to_nat z).
  intros n Hn.
  pose proof (len_encodeText_cjk_path n) as Hlen. rewrite Hn in Hlen.
  split; [exact Hlen |].
  assert (Hc : collectEntries [(cjk_path n, Text [])] [] =
               Ok [mk_entry (cjk_path n) false []]).
  { apply (collectEntries_ok [(cjk_path n, Text [])] []).
    - repeat constructor. cbn [fst]. unfold cjk_path. rewrite len_repeat. lia.
    - cbn. lia. }
  rewrite (serializeFileMap_collected _ _ Hc).
  cbn [map concat]. rewrite app_nil_r.
  set (e := mk_entry (cjk_path n) false []).
  assert (He : entry_record e =
               encodeLE_loop (3 * z) 2
               ++ encodeLE_loop 0 4 ++ [x00] ++ encodeText (cjk_path n) ++ [])
    by (unfold entry_record, e; cbn [path content isBinary]; now rewrite Hlen).
  assert (Hl : len (entry_record e) = 7 + 3 * z).
  { rewrite He, !len_app, Hlen, !encodeLE_loop_le_bytes, !len_le_bytes.
    change (len [x00]) with 1. change (len (@nil byte)) with 0. lia. }
  rewrite Hl, He. change (len [e]) with 1.
  rewrite !(encodeLE_loop_small 4) by lia.
  replace (15 + (7 + 3 * z)) with (22 + 3 * z) by lia.
  eexists. reflexivity.
Qed.

(** C2, the code at a failing input. The path of [long_path_map] takes
    66000 UTF-8 bytes, more than 65535, but has only 22000 code units:
    [serializeFileMap] does not fail with [PATH_TOO_LONG]; it returns a
    buffer whose 2-byte [pathLength] field holds 66000 modulo 65536, that
    is [d0 01], and [deserializeFileMap] reads that buffer as an entry
    whose path is 154 copies of U+65E5 followed by U+FFFD. *)
Theorem path_limit_counts_code_units :
  65535 < len (encodeText (cjk_path (Z.to_nat 22000)))
  /\ (exists tail,
        serializeFileMap long_path_map =
        Ok (HEADER ++ le_bytes 4 66022 ++ le_bytes 4 1 ++ [xd0; x01] ++ tail))
  /\ (buf <- serializeFileMap long_path_map ;; deserializeFileMap buf) =
     Ok [(cjk_path 154 ++ [0xFFFD], Text [])].
Proof.
  destruct (serializeFileMap_cjk_path 22000) as (Hlen & tail & Hser); [lia |].
  split; [rewrite Hlen; clear; lia |].
  split; [exists tail; exact Hser |].
  clear. vm_compute. reflexivity.
Qed.

Lemma serializeFileMap_binary_then_text (z : Z) :
  0 <= z <= 0xffffffff - 1 ->
  total_content_bytes (binary_then_text (Z.to_nat z)) = z + 2
  /\ exists buf, serializeFileMap (binary_then_text (Z.to_nat z)) = Ok buf.
Proof.
  intros Hz. generalize (Z2Nat.id z (proj1 Hz)). generalize (Z.to_nat z).
  intros n Hn. split.
  - unfold binary_then_text, total_content_bytes.
    cbn [fold_right snd content_bytes]. rewrite len_repeat.
    change (len (encodeText [233])) with 2. lia.
  - assert (Hc : collectEntries (binary_then_text n) [] =
                 Ok ([] ++ map entry_of (binary_then_text n))).
    { apply collectEntries_ok.
      - repeat constructor; cbn; lia.
      - unfold binary_then_text. cbn [size_checks_pass content_length content_bytes].
        change (stored_content_size []) with 0. rewrite !len_repeat.
        change (len [233]) with 1. lia. }
    rewrite (serializeFileMap_collected _ _ Hc). eexists. reflexivity.
Qed.

(** C6, the code at a failing input. The contents of [oversized_map]
    take 4294967296 bytes, more than 2^32 - 1, but the check adds the code
    units of the text being visited, not its bytes: [serializeFileMap] does
    not fail with [CONTENT_TOO_LARGE], it returns a buffer. *)
Theorem content_limit_counts_code_units :
  0xffffffff < total_content_bytes oversized_map
  /\ exists buf, serializeFileMap oversized_map = Ok buf.
Proof.
  destruct (serializeFileMap_binary_then_text 4294967294) as (Ht & buf & Hser);
    [lia |].
  split; [unfold oversized_map; rewrite Ht; clear; lia |].
  exists buf. exact Hser.
Qed.

(** C8. When the gzip stream throws a value that is not a [SqurpError],
    [unzip] fails with [CORRUPTED_DATA]; when it throws a [SqurpError],
    [unzip] fails with that same error. *)
Theorem unzip_normalizes_foreign_failures
  (gzip_stream : list byte -> StreamRead) (data : list byte) :
  (forall tag,
      gzip_stream data = Failed (ThrownOther tag) ->
      unzip gzip_stream data = Throw CORRUPTED_DATA)
  /\ (forall code,
        gzip_stream data = Failed (ThrownSqurp code) ->
        unzip gzip_stream data = Throw code).
Proof.
  split; intros x H; unfold unzip, decompressWithGzip; rewrite H; reflexivity.
Qed.

(** [failing_stream] on a non-empty and on an empty input. *)
Lemma unzip_normalizes_witness :
  unzip failing_stream [x00; x01; x02; x03] = Throw CORRUPTED_DATA
  /\ unzip failing_stream [] = Throw UNEXPECTED_END.
Proof.
  split.
  - apply (proj1 (unzip_normalizes_foreign_failures failing_stream _) 0%nat).
    reflexivity.
  - apply (proj2 (unzip_normalizes_foreign_failures failing_stream _)).
    reflexivity.
Defined.

(* ================================================================= *)
(** ** The integer helpers, the concatenation loop and the writer *)

(** *** [encodeLE] and [decodeLE] on their own *)

Lemma len_encodeLE_loop (v : Z) (n : nat) : len (encodeLE_loop v n) = Z.of_nat n.
Proof. now rewrite encodeLE_loop_le_bytes, len_le_bytes. Qed.

Lemma pow256_dvd_2_32 (n : nat) :
  (n <= 4)%nat -> exists q, 0 < q /\ 2 ^ 32 = q * 256 ^ Z.of_nat n.
Proof.
  intros H.
  assert (n = 0 \/ n = 1 \/ n = 2 \/ n = 3 \/ n = 4)%nat
    as [-> | [-> | [-> | [-> | ->]]]] by lia.
  - exists (2 ^ 32). split; reflexivity.
  - exists (2 ^ 24). split; reflexivity.
  - exists (2 ^ 16). split; reflexivity.
  - exists (2 ^ 8). split; reflexivity.
  - exists 1. split; reflexivity.
Qed.

Lemma to_int32_mod_pow256 (v : Z) (n : nat) :
  (n <= 4)%nat -> to_int32 v mod 256 ^ Z.of_nat n = v mod 256 ^ Z.of_nat n.
Proof.
  intros H. destruct (pow256_dvd_2_32 n H) as (q & Hq & E).
  assert (Hp : 0 < 256 ^ Z.of_nat n) by (apply Z.pow_pos_nonneg; lia).
  set (p := 256 ^ Z.of_nat n) in *.
  unfold to_int32.
  assert (Hk : exists k, (v + 2 ^ 31) mod 2 ^ 32 - 2 ^ 31 = v + k * p).
  { exists (- ((v + 2 ^ 31) / 2 ^ 32) * q).
    pose proof (Z.div_mod (v + 2 ^ 31) (2 ^ 32) ltac:(lia)) as Hdm.
    rewrite E in *. clearbody p. nia. }
  destruct Hk as [k ->]. apply Z.mod_add. lia.
Qed.

(** X1. For a value that is not negative and a width of at most 4 bytes,
    [encodeLE] returns a field of exactly that many bytes, and the unsigned
    little-endian value of the field is the value modulo 256^width: the low
    bytes are written, and what does not fit is dropped without an
    error. *)
Theorem encodeLE_writes_low_bytes (value : Z) (bytes : nat) :
  0 <= value ->
  (bytes <= 4)%nat ->
  exists field,
    encodeLE value bytes = Ok field
    /\ len field = Z.of_nat bytes
    /\ unsignedLE field = value mod 256 ^ Z.of_nat bytes.
Proof.
  intros Hv Hn. exists (encodeLE_loop value bytes).
  split; [now apply encodeLE_nonneg |].
  split; [apply len_encodeLE_loop |].
  rewrite encodeLE_loop_le_bytes, unsignedLE_le_bytes.
  now apply to_int32_mod_pow256.
Qed.

(** 66000 on two bytes: the field holds 464. *)
Lemma encodeLE_writes_low_bytes_witness :
  exists field,
    encodeLE 66000 2 = Ok field
    /\ len field = Z.of_nat 2
    /\ unsignedLE field = 66000 mod 256 ^ Z.of_nat 2.
Proof.
  apply (encodeLE_writes_low_bytes 66000 2); lia.
Defined.

(** [encodeLE] throws on a negative value only, and then with
    [CORRUPTED_DATA]. *)
Lemma encodeLE_rejects_negative (value : Z) (bytes : nat) (code : SqurpErrorCode) :
  encodeLE value bytes = Throw code <-> value < 0 /\ code = CORRUPTED_DATA.
Proof.
  unfold encodeLE. destruct (Z.ltb_spec value 0); split.
  - intros [= <-]. split; [assumption | reflexivity].
  - intros [_ ->]. reflexivity.
  - discriminate.
  - lia.
Qed.

(** X2. For every value from 0 to 2^31 - 1 that fits the width
    (value < 256^width), [encodeLE] returns a field and [decodeLE] of that
    field is the value. *)
Theorem decodeLE_encodeLE_roundtrip (value : Z) (bytes : nat) :
  0 <= value < 2 ^ 31 ->
  value < 256 ^ Z.of_nat bytes ->
  exists field, encodeLE value bytes = Ok field /\ decodeLE field = value.
Proof.
  intros Hv Hn. exists (encodeLE_loop value bytes).
  split; [apply encodeLE_nonneg; lia |].
  rewrite encodeLE_loop_small by assumption.
  rewrite decodeLE_unsigned, unsignedLE_le_bytes.
  rewrite Z.mod_small by lia. apply to_int32_id. lia.
Qed.

(** 65535 on two bytes. *)
Lemma decodeLE_encodeLE_roundtrip_witness :
  exists field, encodeLE 65535 2 = Ok field /\ decodeLE field = 65535.
Proof.
  apply (decodeLE_encodeLE_roundtrip 65535 2); vm_compute; intuition discriminate.
Defined.

Lemma unsignedLE_app (a b : list byte) :
  unsignedLE (a ++ b) = unsignedLE a + 256 ^ len a * unsignedLE b.
Proof.
  induction a as [| x a IH];
    [cbn [app]; change (len (@nil byte)) with 0; change (unsignedLE []) with 0;
     rewrite Z.pow_0_r; lia |].
  cbn [app]. change (unsignedLE (x :: a ++ b)) with (byte2Z x + 256 * unsignedLE (a ++ b)).
  change (unsignedLE (x :: a)) with (byte2Z x + 256 * unsignedLE a).
  rewrite IH, len_cons. pose proof (len_nonneg a).
  rewrite Z.pow_add_r by lia. change (256 ^ 1) with 256. ring.
Qed.

(** X3. [decodeLE] always returns a signed 32-bit number; it depends on
    the first four bytes of its argument only; and modulo 2^32 it is the
    unsigned little-endian value of those four bytes. *)
Theorem decodeLE_reads_four_bytes (bytes : list byte) :
  - 2 ^ 31 <= decodeLE bytes < 2 ^ 31
  /\ decodeLE bytes = decodeLE (firstn 4 bytes)
  /\ decodeLE bytes mod 2 ^ 32 = unsignedLE (firstn 4 bytes).
Proof.
  assert (Hmod : unsignedLE bytes mod 2 ^ 32 = unsignedLE (firstn 4 bytes)).
  { rewrite <- (firstn_skipn 4 bytes) at 1. rewrite unsignedLE_app.
    pose proof (unsignedLE_range (firstn 4 bytes)) as Hr.
    pose proof (len_nonneg (firstn 4 bytes)) as H0.
    assert (Hl : len (firstn 4 bytes) <= 4) by (rewrite len_firstn; lia).
    destruct (Z.eq_dec (len (firstn 4 bytes)) 4) as [E | E].
    - rewrite E in *. change (256 ^ 4) with (2 ^ 32) in *.
      rewrite (Z.mul_comm (2 ^ 32)), Z.mod_add by lia.
      apply Z.mod_small. lia.
    - assert (Hs : skipn 4 bytes = []).
      { apply skipn_all2. rewrite len_firstn in *. unfold len in *. lia. }
      rewrite Hs. change (unsignedLE []) with 0. rewrite Z.mul_0_r, Z.add_0_r.
      apply Z.mod_small. split; [lia |].
      apply Z.lt_le_trans with (256 ^ len (firstn 4 bytes)); [lia |].
      change (2 ^ 32) with (256 ^ 4). apply Z.pow_le_mono_r; lia. }
  rewrite !decodeLE_unsigned. split; [apply to_int32_range |]. split.
  - apply to_int32_eq_mod. rewrite Hmod.
    pose proof (unsignedLE_lt_2_32 (firstn 4 bytes)) as Hr.
    rewrite Z.mod_small; [reflexivity |]. apply Hr. rewrite len_firstn. lia.
  - rewrite to_int32_mod. exact Hmod.
Qed.

(** *** The loop of [concatUint8Arrays] *)

Lemma typed_array_set_fits (done arr rest : list byte) :
  len rest = len arr ->
  forall tail,
    typed_array_set (done ++ rest ++ tail) arr (len done) =
    Some (done ++ arr ++ tail).
Proof.
  intros Hlen tail. unfold typed_array_set.
  pose proof (len_nonneg done). pose proof (len_nonneg arr).
  pose proof (len_nonneg tail).
  destruct (Z.ltb_spec (len done) 0); [lia |].
  rewrite !len_app.
  destruct (Z.ltb_spec (len done + (len rest + len tail)) (len done + len arr));
    [lia |].
  cbn [orb]. f_equal.
  replace (Z.to_nat (len done)) with (length done) by (unfold len; lia).
  replace (Z.to_nat (len done + len arr)) with (length done + length rest)%nat
    by (unfold len in *; lia).
  rewrite firstn_app, firstn_all, Nat.sub_diag. cbn [firstn].
  rewrite app_nil_r. f_equal. f_equal.
  rewrite app_assoc, <- length_app, skipn_app, skipn_all, Nat.sub_diag.
  reflexivity.
Qed.

Lemma concat_loop_fills (arrays : list (list byte)) :
  forall done : list byte,
    concat_loop arrays (done ++ repeat x00 (length (concat arrays))) (len done) =
    Some (done ++ concat arrays).
Proof.
  induction arrays as [| arr arrays IH]; intros done.
  - cbn. reflexivity.
  - cbn [concat_loop concat]. rewrite length_app, repeat_app.
    rewrite typed_array_set_fits by (unfold len; now rewrite repeat_length).
    rewrite <- len_app, app_assoc. rewrite IH. now rewrite <- app_assoc.
Qed.

Lemma total_length_fold (arrays : list (list byte)) (z : Z) :
  fold_left (fun sum arr => sum + len arr) arrays z = z + len (concat arrays).
Proof.
  revert z. induction arrays as [| arr arrays IH]; intros z; cbn [fold_left concat].
  - change (len (@nil byte)) with 0. lia.
  - rewrite IH, len_app. lia.
Qed.

(** X4. The loop of [concatUint8Arrays] (a zero-filled buffer of the
    summed length, then [result.set(arr, offset)] for every array) never
    writes out of range and returns the arrays joined in order; the length
    of the result is the sum of the lengths. *)
Theorem concatUint8Arrays_loop_correct (arrays : list (list byte)) :
  concatUint8Arrays_loop arrays = Some (concatUint8Arrays arrays)
  /\ len (concatUint8Arrays arrays) =
     fold_right (fun arr sum => len arr + sum) 0 arrays.
Proof.
  split.
  - unfold concatUint8Arrays_loop, new_Uint8Array, concatUint8Arrays. cbv zeta.
    rewrite total_length_fold. unfold len at 1. rewrite Z.add_0_l, Nat2Z.id.
    exact (concat_loop_fills arrays []).
  - unfold concatUint8Arrays.
    induction arrays as [| arr arrays IH]; [reflexivity |].
    cbn [concat fold_right]. rewrite len_app, IH. reflexivity.
Qed.

(** *** What [serializeFileMap] accepts and what it writes *)

Lemma collectEntries_inv (it : FileMap) :
  forall entries result,
    collectEntries it entries = Ok result ->
    Forall (fun e => len (fst e) <= 65535) it
    /\ size_checks_pass it (stored_content_size entries)
    /\ result = entries ++ map entry_of it.
Proof.
  induction it as [| [p c] it IH]; intros entries result H.
  - cbn in H. apply Ok_inj in H. subst result.
    split; [constructor |]. split; [exact I | now rewrite app_nil_r].
  - cbn [collectEntries] in H. rewrite !Z.gtb_ltb in H.
    destruct (Z.ltb_spec 65535 (len p)) as [Hp | Hp]; [discriminate |].
    destruct (Z.ltb_spec 0xffffffff (stored_content_size entries + content_length c))
      as [Hs | Hs]; [discriminate |].
    apply IH in H. destruct H as (Hps & Hss & ->).
    rewrite stored_content_size_snoc in Hss.
    split; [constructor; [exact Hp | exact Hps] |].
    split; [split; [exact Hs | destruct c; exact Hss] |].
    rewrite <- app_assoc. destruct c; reflexivity.
Qed.

Lemma serializeFileMap_ok_inv (m : FileMap) (buf : list byte) :
  serializeFileMap m = Ok buf -> collectEntries m [] = Ok (map entry_of m).
Proof.
  intros H. destruct (collectEntries m []) as [entries | e] eqn:Hc.
  - destruct (collectEntries_inv m [] entries Hc) as (_ & _ & ->). reflexivity.
  - unfold serializeFileMap in H. rewrite Hc in H. discriminate.
Qed.

(** X5. [serializeFileMap] returns a buffer exactly when every path has
    at most 65535 UTF-16 code units and, at every entry, the content bytes
    of the entries before it plus [content.length] of the entry (code
    units for a string, bytes for a [Uint8Array]) is at most 2^32 - 1. *)
Theorem serializeFileMap_succeeds_iff (m : FileMap) :
  (exists buf, serializeFileMap m = Ok buf)
  <-> Forall (fun e => len (fst e) <= 65535) m /\ size_checks_pass m 0.
Proof.
  split.
  - intros [buf H]. apply serializeFileMap_ok_inv in H.
    destruct (collectEntries_inv m [] _ H) as (Hp & Hs & _).
    split; assumption.
  - intros [Hp Hs].
    pose proof (collectEntries_ok m [] Hp Hs) as Hc.
    rewrite (serializeFileMap_collected m _ Hc). eexists. reflexivity.
Qed.

(** X6. When [serializeFileMap] throws, the code is [PATH_TOO_LONG] and
    some path has more than 65535 code units, or it is [CONTENT_TOO_LARGE]
    and one of the running size checks fails; it throws nothing else. *)
Theorem serializeFileMap_error_codes (m : FileMap) (code : SqurpErrorCode) :
  serializeFileMap m = Throw code ->
  (code = PATH_TOO_LONG /\ Exists (fun e => 65535 < len (fst e)) m)
  \/ (code = CONTENT_TOO_LARGE /\ ~ size_checks_pass m 0).
Proof.
  intros H. apply serializeFileMap_throws in H.
  exact (collectEntries_throws m [] code H).
Qed.

(** The path of 70000 code units of the repository's test. *)
Lemma serializeFileMap_error_codes_witness :
  (PATH_TOO_LONG = PATH_TOO_LONG
   /\ Exists (fun e => 65535 < len (fst e)) test_long_path_map)
  \/ (PATH_TOO_LONG = CONTENT_TOO_LARGE
      /\ ~ size_checks_pass test_long_path_map 0).
Proof.
  apply (serializeFileMap_error_codes test_long_path_map PATH_TOO_LONG).
  vm_compute. reflexivity.
Defined.

Lemma len_entry_record (e : jsstring * Content) :
  len (entry_record (entry_of e)) =
  7 + len (encodeText (fst e)) + len (content_bytes (snd e)).
Proof.
  unfold entry_record, entry_of. cbn [path content isBinary].
  rewrite !len_app, !len_encodeLE_loop, len_cons, len_nil. lia.
Qed.

Lemma len_entry_records (m : FileMap) :
  15 + len (concat (map entry_record (map entry_of m))) = container_size m.
Proof.
  induction m as [| e m IH]; [reflexivity |].
  cbn [map concat container_size fold_right]. fold (container_size m).
  rewrite len_app, len_entry_record. lia.
Qed.

(** X7. A buffer returned by [serializeFileMap] has 15 bytes plus, for
    every entry, 7 bytes, the UTF-8 bytes of the path and the content
    bytes, whatever the length fields hold. *)
Theorem serializeFileMap_length (m : FileMap) (buf : list byte) :
  serializeFileMap m = Ok buf -> len buf = container_size m.
Proof.
  intros H. pose proof (serializeFileMap_ok_inv m buf H) as Hc.
  rewrite (serializeFileMap_collected m _ Hc) in H. apply Ok_inj in H.
  rewrite <- H, !len_app, !len_encodeLE_loop, <- len_entry_records.
  change (len HEADER) with 7. lia.
Qed.

(** The empty container. *)
Lemma serializeFileMap_length_witness :
  len (HEADER ++ [x0f; x00; x00; x00] ++ [x00; x00; x00; x00]) = container_size [].
Proof.
  apply (serializeFileMap_length [] _). vm_compute. reflexivity.
Defined.

Lemma le_bytes_congr (n : nat) :
  forall a b,
    a mod 256 ^ Z.of_nat n = b mod 256 ^ Z.of_nat n ->
    le_bytes n a = le_bytes n b.
Proof.
  induction n as [| n IH]; intros a b H; [reflexivity |].
  rewrite Nat2Z.inj_succ, Z.pow_succ_r in H by lia.
  assert (Hp : 0 < 256 ^ Z.of_nat n) by (apply Z.pow_pos_nonneg; lia).
  rewrite (Z.rem_mul_r a 256), (Z.rem_mul_r b 256) in H by lia.
  set (p := 256 ^ Z.of_nat n) in *.
  assert (H1 : a mod 256 = b mod 256).
  { pose proof (Z.mod_pos_bound a 256 ltac:(lia)).
    pose proof (Z.mod_pos_bound b 256 ltac:(lia)).
    pose proof (Z.mod_pos_bound (a / 256) p Hp).
    pose proof (Z.mod_pos_bound (b / 256) p Hp).
    clearbody p.
    generalize dependent ((a / 256) mod p). generalize dependent ((b / 256) mod p).
    generalize dependent (a mod 256). generalize dependent (b mod 256).
    intros. lia. }
  cbn [le_bytes]. rewrite H1. f_equal. apply IH. fold p. lia.
Qed.

Lemma encodeLE_loop_unsigned (v : Z) (n : nat) :
  (n <= 4)%nat -> encodeLE_loop v n = le_bytes n v.
Proof.
  intros H. rewrite encodeLE_loop_le_bytes. apply le_bytes_congr.
  now apply to_int32_mod_pow256.
Qed.

(** X8. When every path takes at most 65535 UTF-8 bytes and the container
    is smaller than 2^32 bytes, [serializeFileMap] returns exactly the
    container of the format description: the magic header, [totalLength],
    [entryCount], and for every entry in order [pathLength],
    [contentLength], the flag, the path bytes and the content bytes, every
    integer field holding its true value, unsigned little-endian. *)
Theorem serializeFileMap_writes_container (m : FileMap) :
  Forall (fun e => len (encodeText (fst e)) <= 65535) m ->
  container_size m < 2 ^ 32 ->
  serializeFileMap m = Ok (container (map raw_of_entry m)).
Proof.
  intros Hp Hsize.
  pose proof (container_size_bounds m) as (H15 & Hn & Htotal & _).
  assert (Hc : collectEntries m [] = Ok (map entry_of m)).
  { apply (collectEntries_ok m []).
    - eapply Forall_impl; [| exact Hp]. cbn beta. intros e He.
      pose proof (len_encodeText (fst e)). unfold jsstring in *. lia.
    - apply size_checks_of_total. change (stored_content_size []) with 0. lia. }
  rewrite (serializeFileMap_collected m _ Hc).
  assert (Hbody : concat (map entry_record (map entry_of m)) =
                  flat_map record_bytes (map raw_of_entry m)).
  { clear. induction m as [| e m IH]; [reflexivity |].
    cbn [map concat flat_map]. rewrite IH. f_equal.
    unfold entry_record, record_bytes, entry_of, raw_of_entry.
    cbn [path isBinary content raw_path raw_flag raw_content].
    rewrite !encodeLE_loop_unsigned by lia. destruct (snd e); reflexivity. }
  rewrite Hbody. rewrite !encodeLE_loop_unsigned by lia.
  unfold container.
  replace (len (map entry_of m)) with (len (map raw_of_entry m))
    by (unfold len; now rewrite !length_map).
  reflexivity.
Qed.

(** The container of [surrogate_text_map]. *)
Lemma serializeFileMap_writes_container_witness :
  serializeFileMap surrogate_text_map =
  Ok (container (map raw_of_entry surrogate_text_map)).
Proof.
  apply (serializeFileMap_writes_container surrogate_text_map).
  - repeat constructor; vm_compute; discriminate.
  - vm_compute. reflexivity.
Defined.

(* ================================================================= *)
(** ** What the reader accepts and how it fails *)

(** *** What [deserializeFileMap] accepts and what it returns *)

Lemma decodeLE_range (bytes : list byte) : - 2 ^ 31 <= decodeLE bytes < 2 ^ 31.
Proof. rewrite decodeLE_unsigned. apply to_int32_range. Qed.

Lemma readEntry_throws (data : list byte) (offset : Z) (result : FileMap)
  (code : SqurpErrorCode) :
  readEntry data offset result = Throw code ->
  (code = UNEXPECTED_END /\ len data < offset + 7)
  \/ code = ENTRY_EXCEEDS_BOUNDS.
Proof.
  unfold readEntry. cbv zeta. rewrite !Z.gtb_ltb.
  destruct (Z.ltb_spec (len data) (offset + 7)); [intros [= <-]; left; split; [reflexivity | lia] |].
  match goal with |- context [if ?b then _ else _] => destruct b end;
    [intros [= <-]; right; reflexivity | discriminate].
Qed.

Lemma readEntries_throws (count : nat) (data : list byte) :
  forall offset result code,
    readEntries count data offset result = Throw code ->
    code = UNEXPECTED_END \/ code = ENTRY_EXCEEDS_BOUNDS.
Proof.
  induction count as [| n IH]; intros offset result code H; [discriminate |].
  cbn [readEntries] in H.
  destruct (readEntry data offset result) as [[offset' result'] | e] eqn:E.
  - cbn [bind fst snd] in H. exact (IH _ _ _ H).
  - cbn [bind] in H. apply readEntry_throws in E.
    injection H as <-. tauto.
Qed.

(** X9. When [deserializeFileMap] throws, the code is [INVALID_HEADER],
    [UNEXPECTED_END], [CORRUPTED_DATA] or [ENTRY_EXCEEDS_BOUNDS]. *)
Theorem deserializeFileMap_error_codes (data : list byte) (code : SqurpErrorCode) :
  deserializeFileMap data = Throw code ->
  code = INVALID_HEADER \/ code = UNEXPECTED_END
  \/ code = CORRUPTED_DATA \/ code = ENTRY_EXCEEDS_BOUNDS.
Proof.
  unfold deserializeFileMap. cbv zeta.
  destruct (header_matches data); cbn [negb]; [| intros [= <-]; tauto].
  destruct (len HEADER + 4 >? len data); [intros [= <-]; tauto |].
  match goal with |- context [negb ?b] => destruct b end; cbn [negb];
    [| intros [= <-]; tauto].
  destruct (len HEADER + 4 + 4 >? len data); [intros [= <-]; tauto |].
  intros H. apply readEntries_throws in H. tauto.
Qed.

(** One record that announces five path bytes and has none. *)
Lemma deserializeFileMap_error_codes_witness :
  ENTRY_EXCEEDS_BOUNDS = INVALID_HEADER \/ ENTRY_EXCEEDS_BOUNDS = UNEXPECTED_END
  \/ ENTRY_EXCEEDS_BOUNDS = CORRUPTED_DATA
  \/ ENTRY_EXCEEDS_BOUNDS = ENTRY_EXCEEDS_BOUNDS.
Proof.
  apply (deserializeFileMap_error_codes
           (framed [x01; x00; x00; x00] [x05; x00; x00; x00; x00; x00; x00])).
  vm_compute. reflexivity.
Defined.

Lemma map_set_keys (m : FileMap) (key : jsstring) (value : Content) :
  NoDup (map fst m) ->
  NoDup (map fst (map_set m key value))
  /\ (forall k, In k (map fst (map_set m key value)) <-> k = key \/ In k (map fst m))
  /\ (length (map_set m key value) <= S (length m))%nat.
Proof.
  induction m as [| [k v] m IH]; intros Hnd.
  - cbn. split; [repeat constructor; intros [] |].
    split; [intros k; intuition congruence | lia].
  - cbn [map_set]. cbn [map fst] in Hnd.
    apply NoDup_cons_iff in Hnd. destruct Hnd as [Hk Hnd].
    destruct (string_eqb k key) eqn:E.
    + apply string_eqb_eq in E. subst k. cbn [map fst length].
      split; [constructor; assumption |]. split; [| lia].
      intros k. cbn [In]. intuition congruence.
    + destruct (IH Hnd) as (IH1 & IH2 & IH3). cbn [map fst length].
      split; [| split; [| lia]].
      * constructor; [| assumption]. rewrite IH2. intros [-> | Hin];
          [rewrite string_eqb_refl in E; discriminate | contradiction].
      * intros k'. cbn [In]. rewrite IH2. tauto.
Qed.

Lemma readEntry_keys (data : list byte) (offset : Z) (result : FileMap)
  (r : Z * FileMap) :
  readEntry data offset result = Ok r ->
  NoDup (map fst result) ->
  NoDup (map fst (snd r)) /\ (length (snd r) <= S (length result))%nat.
Proof.
  unfold readEntry. cbv zeta.
  destruct (offset + 7 >? len data); [discriminate |].
  match goal with |- context [if ?b then Throw _ else _] => destruct b end;
    [discriminate |].
  intros H Hnd. apply Ok_inj in H. subst r. cbn [snd].
  match goal with |- context [map_set result ?k ?v] =>
    destruct (map_set_keys result k v Hnd) as (H1 & _ & H3) end.
  split; assumption.
Qed.

Lemma readEntries_keys (count : nat) (data : list byte) :
  forall offset result m,
    readEntries count data offset result = Ok m ->
    NoDup (map fst result) ->
    NoDup (map fst m) /\ (length m <= length result + count)%nat.
Proof.
  induction count as [| n IH]; intros offset result m H Hnd.
  - cbn in H. apply Ok_inj in H. subst m. split; [assumption | lia].
  - cbn [readEntries] in H.
    destruct (readEntry data offset result) as [r | e] eqn:E; [| discriminate].
    cbn [bind] in H.
    destruct (readEntry_keys _ _ _ _ E Hnd) as [Hnd' Hlen].
    destruct (IH _ _ _ H Hnd') as [Hm Hl]. split; [assumption | lia].
Qed.

(** X10. When [deserializeFileMap] returns a map, the buffer begins with
    the magic header, has from 15 to 2^31 - 1 bytes, its [totalLength]
    field holds its length, the paths of the map are pairwise distinct and
    the map has at most [entryCount] entries. *)
Theorem deserializeFileMap_accepts_only (data : list byte) (m : FileMap) :
  deserializeFileMap data = Ok m ->
  firstn 7 data = HEADER
  /\ 15 <= len data < 2 ^ 31
  /\ unsignedLE (slice data 7 11) = len data
  /\ NoDup (map fst m)
  /\ len m <= Z.max 0 (decodeLE (slice data 11 15)).
Proof.
  unfold deserializeFileMap. cbv zeta. change (len HEADER) with 7.
  rewrite !Z.gtb_ltb.
  destruct (header_matches data) eqn:Hh; cbn [negb]; [| discriminate].
  destruct (Z.ltb_spec (len data) (7 + 4)); [discriminate |].
  change (7 + 4) with 11.
  destruct (Z.eqb_spec (decodeLE (slice data 7 11)) (len data)) as [Et | Et];
    cbn [negb]; [| discriminate].
  destruct (Z.ltb_spec (len data) (11 + 4)); [discriminate |].
  change (11 + 4) with 15. intros Hread.
  destruct (readEntries_keys _ _ _ _ _ Hread (NoDup_nil _)) as [Hnd Hl].
  pose proof (decodeLE_range (slice data 7 11)) as Hr.
  split; [now apply header_matches_firstn |].
  split; [lia |]. split; [| split; [assumption |]].
  - rewrite decodeLE_unsigned in Et.
    pose proof (unsignedLE_lt_2_32 _ (len_slice_7_11 data)) as Hu.
    unfold to_int32 in Et. lia.
  - cbn [length Nat.add] in Hl. unfold len. lia.
Qed.

(** The empty container. *)
Lemma deserializeFileMap_accepts_only_witness :
  firstn 7 (framed [x00; x00; x00; x00] []) = HEADER
  /\ 15 <= len (framed [x00; x00; x00; x00] []) < 2 ^ 31
  /\ unsignedLE (slice (framed [x00; x00; x00; x00] []) 7 11)
     = len (framed [x00; x00; x00; x00] [])
  /\ NoDup (map fst (@nil (jsstring * Content)))
  /\ len (@nil (jsstring * Content))
     <= Z.max 0 (decodeLE (slice (framed [x00; x00; x00; x00] []) 11 15)).
Proof.
  apply (deserializeFileMap_accepts_only (framed [x00; x00; x00; x00] []) []).
  vm_compute. reflexivity.
Defined.

(** *** Buffers with a consistent [totalLength] *)

Lemma len_framed (count body : list byte) :
  len count = 4 -> len (framed count body) = 15 + len body.
Proof.
  intros H. unfold framed. rewrite !len_app, len_le_bytes, H.
  change (len HEADER) with 7. lia.
Qed.

(** After the prologue, a framed buffer is read by the entry loop from
    offset 15. *)
Lemma deserializeFileMap_framed (count body : list byte) :
  len count = 4 ->
  len (framed count body) < 2 ^ 31 ->
  deserializeFileMap (framed count body) =
  readEntries (Z.to_nat (decodeLE count)) (framed count body) 15 [].
Proof.
  intros Hc Hlen. pose proof (len_framed count body Hc) as Hsize.
  pose proof (len_nonneg body).
  unfold deserializeFileMap. unfold framed at 1.
  rewrite header_matches_app. cbn [negb]. cbv zeta.
  change (len HEADER) with 7. rewrite !Z.gtb_ltb.
  destruct (Z.ltb_spec (len (framed count body)) (7 + 4)); [lia |].
  rewrite (slice_middle (framed count body) HEADER (le_bytes 4 (15 + len body))
             (count ++ body));
    [| reflexivity | reflexivity | rewrite len_le_bytes; reflexivity].
  rewrite decodeLE_le_bytes_4 by lia.
  rewrite Hsize at 1. rewrite Z.eqb_refl. cbn [negb].
  destruct (Z.ltb_spec (len (framed count body)) (7 + 4 + 4)); [lia |].
  rewrite (slice_middle (framed count body) (HEADER ++ le_bytes 4 (15 + len body))
             count body);
    [| unfold framed; now rewrite <- app_assoc
     | rewrite len_app, len_le_bytes; reflexivity | rewrite Hc; reflexivity].
  reflexivity.
Qed.

(** The entry loop over records that are present, with iterations to
    spare. *)
Lemma readEntries_records_more (records : list RawRecord) (more : nat) :
  forall (data pre post : list byte) (result : FileMap),
    data = pre ++ flat_map record_bytes records ++ post ->
    Forall (fun r => len (raw_path r) < 2 ^ 16) records ->
    len data < 2 ^ 31 ->
    readEntries (length records + more) data (len pre) result =
    readEntries more data (len pre + len (flat_map record_bytes records))
      (read_records records result).
Proof.
  induction records as [| r records IH]; intros data pre post result Hdata Hp Hlen.
  - cbn [length Nat.add flat_map read_records fold_left].
    change (len (@nil byte)) with 0. now rewrite Z.add_0_r.
  - apply Forall_cons_iff in Hp. destruct Hp as [Hr Hrs].
    cbn [length Nat.add readEntries flat_map] in *.
    rewrite (readEntry_record data pre (flat_map record_bytes records ++ post) r);
      [| subst data; now rewrite <- app_assoc | assumption | assumption].
    cbn [bind fst snd]. rewrite <- len_app.
    rewrite (IH data (pre ++ record_bytes r) post);
      [| subst data; now rewrite <- !app_assoc | assumption | assumption].
    rewrite !len_app. f_equal. lia.
Qed.

Lemma framed_layout (count body : list byte) :
  framed count body = (HEADER ++ le_bytes 4 (15 + len body) ++ count) ++ body.
Proof. unfold framed. now rewrite <- !app_assoc. Qed.

Lemma len_frame_prefix (count : list byte) (n : Z) :
  len count = 4 -> len (HEADER ++ le_bytes 4 n ++ count) = 15.
Proof.
  intros H. rewrite !len_app, len_le_bytes, H. reflexivity.
Qed.

Lemma len_records_le_body (records : list RawRecord) :
  7 * len records <= len (flat_map record_bytes records).
Proof.
  induction records as [| r records IH]; [cbn; lia |].
  cbn [flat_map]. rewrite len_app, len_cons, len_record_bytes.
  pose proof (len_nonneg (raw_path r)). pose proof (len_nonneg (raw_content r)).
  lia.
Qed.

(** X11. Bytes after the last counted record are ignored: a buffer made of
    the header, a [totalLength] field that holds the buffer's length, an
    [entryCount] equal to the number of records, the records and any
    further bytes is accepted, and the map is the one read from the
    records. *)
Theorem trailing_bytes_ignored (records : list RawRecord) (junk : list byte) :
  Forall (fun r => len (raw_path r) < 2 ^ 16) records ->
  len (framed (le_bytes 4 (len records)) (flat_map record_bytes records ++ junk))
    < 2 ^ 31 ->
  deserializeFileMap
    (framed (le_bytes 4 (len records)) (flat_map record_bytes records ++ junk))
  = Ok (read_records records []).
Proof.
  intros Hp Hlen.
  set (body := flat_map record_bytes records ++ junk) in *.
  set (count := le_bytes 4 (len records)) in *.
  assert (Hc : len count = 4) by apply len_le_bytes.
  pose proof (len_framed count body Hc) as Hsize.
  assert (Hn : len records <= len body).
  { subst body. rewrite len_app. pose proof (len_nonneg junk).
    pose proof (len_records_le_body records). pose proof (len_nonneg records).
    lia. }
  pose proof (len_nonneg records).
  rewrite deserializeFileMap_framed by assumption.
  unfold count at 1. rewrite decodeLE_le_bytes_4 by lia.
  replace (Z.to_nat (len records)) with (length records)
    by (unfold len; now rewrite Nat2Z.id).
  rewrite <- (len_frame_prefix count (15 + len body) Hc).
  apply readEntries_records with (post := junk); [| assumption | assumption].
  rewrite framed_layout. reflexivity.
Qed.

(** Four bytes after the records of [duplicate_records]. *)
Lemma trailing_bytes_ignored_witness :
  deserializeFileMap
    (framed (le_bytes 4 (len duplicate_records))
       (flat_map record_bytes duplicate_records ++ [xde; xad; xbe; xef]))
  = Ok (read_records duplicate_records []).
Proof.
  apply (trailing_bytes_ignored duplicate_records [xde; xad; xbe; xef]).
  - repeat constructor; vm_compute; reflexivity.
  - vm_compute. reflexivity.
Defined.

(** X12. When the [entryCount] field decodes to zero or to a negative
    number (its fourth byte is 0x80 or more), no record is read: a buffer
    with the header and a correct [totalLength] gives the empty map,
    whatever follows the count. *)
Theorem nonpositive_entry_count_reads_nothing (count body : list byte) :
  len count = 4 ->
  decodeLE count <= 0 ->
  len (framed count body) < 2 ^ 31 ->
  deserializeFileMap (framed count body) = Ok [].
Proof.
  intros Hc Hneg Hlen. rewrite deserializeFileMap_framed by assumption.
  replace (Z.to_nat (decodeLE count)) with 0%nat by lia. reflexivity.
Qed.

(** The count [ff ff ff ff] before the records of [duplicate_records]. *)
Lemma nonpositive_entry_count_witness :
  deserializeFileMap
    (framed [xff; xff; xff; xff] (flat_map record_bytes duplicate_records))
  = Ok [].
Proof.
  apply nonpositive_entry_count_reads_nothing; vm_compute;
    try reflexivity; discriminate.
Defined.

(** X13. In a buffer shorter than 2^31 bytes with the header and a
    correct [totalLength]: when [entryCount] is below 2^31 and larger than
    the number of records present (each with a path of fewer than 2^16
    bytes), and fewer than 7 bytes follow these records,
    [deserializeFileMap] fails with [UNEXPECTED_END]; the records already
    read are not returned. *)
Theorem missing_record_is_unexpected_end
  (records : list RawRecord) (count : Z) (rest : list byte) :
  Forall (fun r => len (raw_path r) < 2 ^ 16) records ->
  len records < count < 2 ^ 31 ->
  len rest < 7 ->
  len (framed (le_bytes 4 count) (flat_map record_bytes records ++ rest)) < 2 ^ 31 ->
  deserializeFileMap
    (framed (le_bytes 4 count) (flat_map record_bytes records ++ rest))
  = Throw UNEXPECTED_END.
Proof.
  intros Hp Hcount Hrest Hlen.
  set (body := flat_map record_bytes records ++ rest) in *.
  set (field := le_bytes 4 count) in *.
  assert (Hc : len field = 4) by apply len_le_bytes.
  pose proof (len_framed field body Hc) as Hsize.
  pose proof (len_nonneg records).
  rewrite deserializeFileMap_framed by assumption.
  unfold field at 1. rewrite decodeLE_le_bytes_4 by lia.
  replace (Z.to_nat count)
    with (length records + S (Z.to_nat (count - len records - 1)))%nat
    by (unfold len in *; lia).
  rewrite <- (len_frame_prefix field (15 + len body) Hc).
  rewrite (readEntries_records_more records _ (framed field body) _ rest);
    [| rewrite framed_layout; reflexivity | assumption | assumption].
  cbn [readEntries]. unfold readEntry.
  rewrite (len_frame_prefix field _ Hc), Z.gtb_ltb, Hsize.
  unfold body. rewrite len_app.
  destruct (Z.ltb_spec (15 + (len (flat_map record_bytes records) + len rest))
              (15 + len (flat_map record_bytes records) + 7)); [reflexivity | lia].
Qed.

(** A count of four before the records of [duplicate_records] and two
    more bytes. *)
Lemma missing_record_witness :
  deserializeFileMap
    (framed (le_bytes 4 4) (flat_map record_bytes duplicate_records ++ [x00; x00]))
  = Throw UNEXPECTED_END.
Proof.
  apply (missing_record_is_unexpected_end duplicate_records 4 [x00; x00]).
  - repeat constructor; vm_compute; reflexivity.
  - vm_compute. split; reflexivity.
  - vm_compute. reflexivity.
  - vm_compute. reflexivity.
Defined.

(** X14. In a buffer shorter than 2^31 bytes with the header, a correct
    [totalLength] and an [entryCount] that counts its records (each with a
    path of fewer than 2^16 bytes) and one more: when that last record has
    its 7-byte prefix, with a [pathLength] below 2^16 and a
    [contentLength] below 2^31 whose sum is more than the bytes that follow
    the prefix,
    [deserializeFileMap] fails with [ENTRY_EXCEEDS_BOUNDS]. *)
Theorem oversized_record_exceeds_bounds
  (records : list RawRecord) (pathLength contentLength : Z) (flag : byte)
  (rest : list byte) :
  Forall (fun r => len (raw_path r) < 2 ^ 16) records ->
  0 <= pathLength < 2 ^ 16 ->
  0 <= contentLength < 2 ^ 31 ->
  len rest < pathLength + contentLength ->
  len (framed (le_bytes 4 (len records + 1))
         (flat_map record_bytes records
          ++ le_bytes 2 pathLength ++ le_bytes 4 contentLength ++ [flag] ++ rest))
    < 2 ^ 31 ->
  deserializeFileMap
    (framed (le_bytes 4 (len records + 1))
       (flat_map record_bytes records
        ++ le_bytes 2 pathLength ++ le_bytes 4 contentLength ++ [flag] ++ rest))
  = Throw ENTRY_EXCEEDS_BOUNDS.
Proof.
  intros Hp Hpl Hcl Hrest Hlen.
  set (last := le_bytes 2 pathLength ++ le_bytes 4 contentLength ++ [flag] ++ rest) in *.
  set (body := flat_map record_bytes records ++ last) in *.
  set (field := le_bytes 4 (len records + 1)) in *.
  assert (Hc : len field = 4) by apply len_le_bytes.
  pose proof (len_framed field body Hc) as Hsize.
  pose proof (len_nonneg records). pose proof (len_nonneg rest).
  pose proof (len_records_le_body records) as Hb.
  assert (Hlast : len last = 7 + len rest).
  { unfold last. rewrite !len_app, !len_le_bytes, len_cons, len_nil. lia. }
  assert (Hbody : len body = len (flat_map record_bytes records) + 7 + len rest)
    by (unfold body; rewrite len_app, Hlast; lia).
  rewrite deserializeFileMap_framed by assumption.
  unfold field at 1. rewrite decodeLE_le_bytes_4 by lia.
  replace (Z.to_nat (len records + 1)) with (length records + 1)%nat
    by (unfold len; lia).
  rewrite <- (len_frame_prefix field (15 + len body) Hc).
  rewrite (readEntries_records_more records _ (framed field body) _ last);
    [| rewrite framed_layout; reflexivity | assumption | assumption].
  set (pre := (HEADER ++ le_bytes 4 (15 + len body) ++ field)
              ++ flat_map record_bytes records).
  assert (Hpre : len pre = 15 + len (flat_map record_bytes records))
    by (unfold pre; rewrite len_app, (len_frame_prefix field _ Hc); reflexivity).
  assert (Hdata : framed field body = pre ++ last).
  { rewrite framed_layout. unfold body, pre. now rewrite app_assoc. }
  rewrite (len_frame_prefix field _ Hc), <- Hpre.
  cbn [readEntries]. unfold readEntry. cbv zeta. rewrite !Z.gtb_ltb.
  destruct (Z.ltb_spec (len (framed field body)) (len pre + 7)); [lia |].
  rewrite (slice_middle (framed field body) pre (le_bytes 2 pathLength)
             (le_bytes 4 contentLength ++ [flag] ++ rest));
    [| exact Hdata | reflexivity | now rewrite len_le_bytes].
  rewrite (slice_middle (framed field body) (pre ++ le_bytes 2 pathLength)
             (le_bytes 4 contentLength) ([flag] ++ rest));
    [| rewrite Hdata; unfold last; now rewrite <- !app_assoc
     | now rewrite len_app, len_le_bytes | now rewrite len_le_bytes].
  rewrite decodeLE_le_bytes_2, decodeLE_le_bytes_4 by lia.
  destruct (Z.ltb_spec (len (framed field body))
              (len pre + 2 + 4 + 1 + pathLength + contentLength));
    [reflexivity | lia].
Qed.

(** A last record that announces 13 bytes and has four. *)
Lemma oversized_record_witness :
  deserializeFileMap
    (framed (le_bytes 4 (len duplicate_records + 1))
       (flat_map record_bytes duplicate_records
        ++ le_bytes 2 3 ++ le_bytes 4 10 ++ [x00] ++ [x61; x62; x63; x64]))
  = Throw ENTRY_EXCEEDS_BOUNDS.
Proof.
  apply (oversized_record_exceeds_bounds duplicate_records 3 10 x00
           [x61; x62; x63; x64]).
  - repeat constructor; vm_compute; reflexivity.
  - lia.
  - lia.
  - vm_compute. reflexivity.
  - vm_compute. reflexivity.
Defined.

(* ================================================================= *)
(** ** Text lengths and input normalisation *)

(** *** [encodeText]: bytes against code units *)

Lemma to_scalar_values_step (c : Z) (rest : jsstring) :
  code_unit c ->
  (exists x, x <= 0xFFFF
             /\ to_scalar_values (c :: rest) = x :: to_scalar_values rest)
  \/ (exists d rest' x,
        rest = d :: rest' /\ 0xFFFF < x
        /\ to_scalar_values (c :: rest) = x :: to_scalar_values rest').
Proof.
  unfold code_unit. intros Hc. rewrite to_scalar_values_unfold.
  destruct (Z.ltb_spec c 0xD800); cbn [orb];
    [left; exists c; split; [lia | reflexivity] |].
  destruct (Z.ltb_spec 0xDFFF c);
    [left; exists c; split; [lia | reflexivity] |].
  destruct (Z.leb_spec 0xDC00 c);
    [left; exists 0xFFFD; split; [lia | reflexivity] |].
  destruct rest as [| d rest'];
    [left; exists 0xFFFD; split; [lia | reflexivity] |].
  destruct (Z.leb_spec 0xDC00 d); cbn [andb];
    [| left; exists 0xFFFD; split; [lia | reflexivity]].
  destruct (Z.leb_spec d 0xDFFF);
    [| left; exists 0xFFFD; split; [lia | reflexivity]].
  right. exists d, rest', (0x10000 + 0x400 * (c - 0xD800) + (d - 0xDC00)).
  split; [reflexivity |]. split; [lia | reflexivity].
Qed.

Lemma len_utf8_encode_bmp (x : Z) :
  x <= 0xFFFF -> len (utf8_encode_code_point x) <= 3.
Proof.
  intros H.
  destruct (Z.le_gt_cases x 0x7F); [rewrite utf8_encode_1 by lia; cbn; lia |].
  destruct (Z.le_gt_cases x 0x7FF); [rewrite utf8_encode_2 by lia; cbn; lia |].
  rewrite utf8_encode_3 by lia; cbn; lia.
Qed.

(** X15. [encodeText] of a string of UTF-16 code units returns at least
    one byte and at most three bytes per code unit. *)
Theorem encodeText_length_bounds (text : jsstring) :
  Forall code_unit text ->
  len text <= len (encodeText text) <= 3 * len text.
Proof.
  intros Hs. split; [apply len_encodeText |].
  unfold encodeText. revert Hs.
  induction text as [| c | c d s IHs IHd] using jsstring_pair_ind; intros Hs.
  - cbn. lia.
  - apply Forall_cons_iff in Hs. destruct Hs as [Hc _].
    destruct (to_scalar_values_step c [] Hc)
      as [(x & Hx & ->) | (d & rest' & x & [=] & _)].
    rewrite len_encodeText_cons. pose proof (len_utf8_encode_bmp x Hx).
    change (to_scalar_values []) with (@nil Z). cbn [flat_map].
    rewrite len_cons. change (len (@nil byte)) with 0.
    change (len (@nil Z)) with 0. lia.
  - apply Forall_cons_iff in Hs. destruct Hs as [Hc Hds].
    pose proof Hds as Hds'. apply Forall_cons_iff in Hds. destruct Hds as [_ Hss].
    destruct (to_scalar_values_step c (d :: s) Hc)
      as [(x & Hx & ->) | (d' & rest' & x & [= <- <-] & Hx & ->)];
      rewrite len_encodeText_cons; rewrite !len_cons in *.
    + pose proof (len_utf8_encode_bmp x Hx). specialize (IHd Hds'). lia.
    + rewrite (proj2 (len_utf8_encode_code_point x) Hx). specialize (IHs Hss). lia.
Qed.

(** A CJK character, a surrogate pair and a letter: 8 bytes for 4 code
    units. *)
Lemma encodeText_length_bounds_witness :
  len [0x65E5; 0xD83D; 0xDE80; 97]
  <= len (encodeText [0x65E5; 0xD83D; 0xDE80; 97])
  <= 3 * len [0x65E5; 0xD83D; 0xDE80; 97].
Proof.
  apply encodeText_length_bounds. unfold code_unit. repeat constructor; lia.
Defined.

(** *** [normalizeInput] *)

Lemma new_Map_distinct (entries : list (jsstring * Content)) :
  NoDup (map fst entries) -> new_Map entries = entries.
Proof.
  intros H. unfold new_Map. now rewrite fold_map_set_fresh.
Qed.

Lemma insert_by_index_perm (i : Z) (p : jsstring * Content)
  (sorted : list (Z * (jsstring * Content))) :
  Permutation (insert_by_index i p sorted) ((i, p) :: sorted).
Proof.
  induction sorted as [| [j q] sorted IH]; [reflexivity |].
  cbn [insert_by_index]. destruct (i <? j); [reflexivity |].
  rewrite IH. apply perm_swap.
Qed.

Lemma insert_by_index_sorted (i : Z) (p : jsstring * Content)
  (sorted : list (Z * (jsstring * Content))) :
  StronglySorted Z.le (map fst sorted) ->
  StronglySorted Z.le (map fst (insert_by_index i p sorted)).
Proof.
  induction sorted as [| [j q] sorted IH]; intros Hs.
  - cbn. repeat constructor.
  - cbn [insert_by_index]. cbn [map fst] in Hs.
    apply StronglySorted_inv in Hs. destruct Hs as [Hs Hj].
    destruct (Z.ltb_spec i j).
    + cbn [map fst]. constructor; [constructor; assumption |].
      constructor; [lia |]. eapply Forall_impl; [| exact Hj]. cbn beta. lia.
    + cbn [map fst]. constructor; [now apply IH |].
      assert (Hperm : Permutation (map fst (insert_by_index i p sorted))
                        (i :: map fst sorted))
        by (rewrite insert_by_index_perm; reflexivity).
      rewrite Forall_forall. intros k Hk.
      apply (Permutation_in _ Hperm) in Hk. destruct Hk as [<- | Hk]; [lia |].
      rewrite Forall_forall in Hj. now apply Hj.
Qed.

Lemma index_properties_spec (o : list (jsstring * Content)) :
  StronglySorted Z.le (map fst (index_properties o))
  /\ Forall (fun ip => array_index (fst (snd ip)) = Some (fst ip))
       (index_properties o)
  /\ Permutation (map snd (index_properties o))
       (filter (fun p => match array_index (fst p) with
                         | Some _ => true
                         | None => false
                         end) o).
Proof.
  induction o as [| p o (IH1 & IH2 & IH3)]; [cbn; repeat split; constructor |].
  cbn [index_properties filter].
  destruct (array_index (fst p)) as [i |] eqn:E; [| repeat split; assumption].
  split; [now apply insert_by_index_sorted |]. split.
  - rewrite Forall_forall. intros ip Hin.
    apply (Permutation_in _ (insert_by_index_perm i p _)) in Hin.
    destruct Hin as [<- | Hin]; [exact E |].
    rewrite Forall_forall in IH2. now apply IH2.
  - rewrite insert_by_index_perm. cbn [map snd]. now constructor.
Qed.

Lemma filter_partition_perm {A} (f : A -> bool) (l : list A) :
  Permutation (filter f l ++ filter (fun x => negb (f x)) l) l.
Proof.
  induction l as [| x l IH]; [reflexivity |].
  cbn [filter]. destruct (f x); cbn [negb app].
  - now constructor.
  - rewrite <- Permutation_middle. now constructor.
Qed.

Lemma Object_entries_perm (o : list (jsstring * Content)) :
  Permutation (Object_entries o) o.
Proof.
  unfold Object_entries.
  destruct (index_properties_spec o) as (_ & _ & Hp). rewrite Hp.
  rewrite <- (filter_partition_perm
                (fun p => match array_index (fst p) with
                          | Some _ => true
                          | None => false
                          end) o) at 3.
  apply Permutation_app_head.
  match goal with
  | |- Permutation ?a ?b => replace b with a; [reflexivity |]
  end.
  apply filter_ext. intros p. destruct (array_index (fst p)); reflexivity.
Qed.

(** X16. [normalizeInput] of a plain object (its keys are pairwise
    distinct) gives a map with the same bindings: first the properties
    whose key is an array index, in ascending index order, then the other
    properties in creation order. *)
Theorem normalizeInput_object (o : list (jsstring * Content)) :
  NoDup (map fst o) ->
  exists indexed,
    normalizeInput (InputObject o) =
      map snd indexed
      ++ filter (fun p => match array_index (fst p) with
                          | Some _ => false
                          | None => true
                          end) o
    /\ Forall (fun ip => array_index (fst (snd ip)) = Some (fst ip)) indexed
    /\ StronglySorted Z.le (map fst indexed)
    /\ Permutation (normalizeInput (InputObject o)) o.
Proof.
  intros Hnd. exists (index_properties o).
  destruct (index_properties_spec o) as (Hs & Hi & _).
  assert (Hmap : normalizeInput (InputObject o) = Object_entries o).
  { cbn [normalizeInput]. apply new_Map_distinct.
    apply (Permutation_NoDup (l := map fst o)); [| assumption].
    apply Permutation_map. symmetry. apply Object_entries_perm. }
  rewrite Hmap. split; [reflexivity |]. split; [assumption |].
  split; [assumption | apply Object_entries_perm].
Qed.

(** The keys [b], [10], [a], [2]. *)
Lemma normalizeInput_object_witness :
  exists indexed,
    normalizeInput (InputObject numbered_object) =
      map snd indexed
      ++ filter (fun p => match array_index (fst p) with
                          | Some _ => false
                          | None => true
                          end) numbered_object
    /\ Forall (fun ip => array_index (fst (snd ip)) = Some (fst ip)) indexed
    /\ StronglySorted Z.le (map fst indexed)
    /\ Permutation (normalizeInput (InputObject numbered_object)) numbered_object.
Proof.
  apply (normalizeInput_object numbered_object).
  repeat constructor; cbn; intuition discriminate.
Defined.

(** X17. [normalizeInput] of a plain object (its keys are pairwise
    distinct) none of whose keys is an array index gives the map of its
    properties in creation order. *)
Theorem normalizeInput_keeps_creation_order (o : list (jsstring * Content)) :
  NoDup (map fst o) ->
  Forall (fun p => array_index (fst p) = None) o ->
  normalizeInput (InputObject o) = o.
Proof.
  intros Hnd Hno. cbn [normalizeInput].
  assert (He : Object_entries o = o).
  { unfold Object_entries. clear Hnd.
    induction o as [| p o IH]; [reflexivity |].
    apply Forall_cons_iff in Hno. destruct Hno as [Hp Hno].
    cbn [index_properties filter]. rewrite Hp.
    specialize (IH Hno).
    assert (Hi : index_properties o = []).
    { clear IH. induction o as [| q o IHo]; [reflexivity |].
      apply Forall_cons_iff in Hno. destruct Hno as [Hq Hno].
      cbn [index_properties]. rewrite Hq. now apply IHo. }
    rewrite Hi in *. cbn [map app] in *. now rewrite IH. }
  rewrite He. now apply new_Map_distinct.
Qed.

(** The keys of [example_map]. *)
Lemma normalizeInput_keeps_creation_order_witness :
  normalizeInput (InputObject example_map) = example_map.
Proof.
  apply (normalizeInput_keeps_creation_order example_map).
  - repeat constructor; cbn; intuition discriminate.
  - repeat constructor.
Defined.

(* ================================================================= *)
(** ** The facade and its transports *)

(** *** Base64 *)

Lemma base64_index_char (i : Z) :
  sextet i -> base64_index (base64_char i) = Some i.
Proof.
  unfold sextet, base64_index, base64_char. intros Hi.
  destruct (Z.ltb_spec i 26); [decide_tests; f_equal; lia |].
  destruct (Z.ltb_spec i 52); [decide_tests; f_equal; lia |].
  destruct (Z.ltb_spec i 62); [decide_tests; f_equal; lia |].
  destruct (Z.eqb_spec i 62); [subst i; reflexivity |].
  replace i with 63 by lia. reflexivity.
Qed.

Lemma base64_char_range (i : Z) : sextet i -> 43 <= base64_char i <= 122.
Proof.
  unfold sextet, base64_char. intros Hi. decide_tests.
Qed.

Lemma base64_char_not_padding (i : Z) : sextet i -> base64_char i <> 61.
Proof.
  intros Hi E. pose proof (base64_index_char i Hi) as H. rewrite E in H.
  discriminate H.
Qed.

Lemma alphabet_char (i : Z) : sextet i -> alphabet (base64_char i).
Proof. intros Hi. exists i. split; [assumption | reflexivity]. Qed.

Lemma list_triple_ind {A} (P : list A -> Prop) :
  P [] -> (forall a, P [a]) -> (forall a b, P [a; b]) ->
  (forall a b c rest, P rest -> P (a :: b :: c :: rest)) ->
  forall l, P l.
Proof.
  intros H0 H1 H2 H3.
  assert (H : forall l, P l /\ (forall a, P (a :: l))
                         /\ (forall a b, P (a :: b :: l))).
  { induction l as [| c l (IH0 & IH1 & IH2)]; [auto |].
    split; [apply IH1 |]. split; [intros a; apply IH2 |].
    intros a b. now apply H3. }
  intros l. apply H.
Qed.

Lemma base64_encode_shape (data : list Z) :
  Forall (fun a => 0 <= a <= 255) data ->
  exists body pad,
    base64_encode data = body ++ pad
    /\ Forall alphabet body
    /\ (pad = [] /\ len body mod 4 = 0
        \/ pad = [61] /\ len body mod 4 = 3
        \/ pad = [61; 61] /\ len body mod 4 = 2)
    /\ base64_decode_loop body 0 0 = data.
Proof.
  induction data as [| a | a b | a b c rest IH] using list_triple_ind;
    intros Hd.
  - exists [], []. repeat split; [constructor | left; split; reflexivity].
  - apply Forall_cons_iff in Hd. destruct Hd as [Ha _].
    assert (H1 : sextet (a / 4)) by (unfold sextet; lia).
    assert (H2 : sextet (a mod 4 * 16)) by (unfold sextet; lia).
    exists [base64_char (a / 4); base64_char (a mod 4 * 16)], [61; 61].
    split; [reflexivity |]. split.
    { repeat (apply Forall_cons; [now apply alphabet_char |]). constructor. }
    split; [right; right; split; reflexivity |].
    cbn [base64_decode_loop]. rewrite !base64_index_char by assumption.
    f_equal. lia.
  - apply Forall_cons_iff in Hd. destruct Hd as [Ha Hd].
    apply Forall_cons_iff in Hd. destruct Hd as [Hb _].
    assert (H1 : sextet (a / 4)) by (unfold sextet; lia).
    assert (H2 : sextet (a mod 4 * 16 + b / 16)) by (unfold sextet; lia).
    assert (H3 : sextet (b mod 16 * 4)) by (unfold sextet; lia).
    exists [base64_char (a / 4); base64_char (a mod 4 * 16 + b / 16);
            base64_char (b mod 16 * 4)], [61].
    split; [reflexivity |]. split.
    { repeat (apply Forall_cons; [now apply alphabet_char |]). constructor. }
    split; [right; left; split; reflexivity |].
    cbn [base64_decode_loop]. rewrite !base64_index_char by assumption.
    f_equal; [lia |]. f_equal. lia.
  - apply Forall_cons_iff in Hd. destruct Hd as [Ha Hd].
    apply Forall_cons_iff in Hd. destruct Hd as [Hb Hd].
    apply Forall_cons_iff in Hd. destruct Hd as [Hc Hd].
    destruct (IH Hd) as (body & pad & He & Hbody & Hpad & Hloop).
    assert (H1 : sextet (a / 4)) by (unfold sextet; lia).
    assert (H2 : sextet (a mod 4 * 16 + b / 16)) by (unfold sextet; lia).
    assert (H3 : sextet (b mod 16 * 4 + c / 64)) by (unfold sextet; lia).
    assert (H4 : sextet (c mod 64)) by (unfold sextet; lia).
    exists (base64_char (a / 4) :: base64_char (a mod 4 * 16 + b / 16)
            :: base64_char (b mod 16 * 4 + c / 64) :: base64_char (c mod 64)
            :: body), pad.
    split; [cbn [base64_encode app]; now rewrite He |]. split.
    { repeat (apply Forall_cons; [now apply alphabet_char |]). assumption. }
    split.
    { rewrite !len_cons. destruct Hpad as [[-> Hm] | [[-> Hm] | [-> Hm]]];
        [left | right; left | right; right]; (split; [reflexivity | lia]). }
    cbn [base64_decode_loop]. rewrite !base64_index_char by assumption.
    rewrite Hloop. f_equal; [lia |]. f_equal; [lia |]. f_equal. lia.
Qed.

Lemma alphabet_not_whitespace (c : Z) :
  alphabet c \/ c = 61 -> negb (ascii_whitespace c) = true.
Proof.
  intros H. assert (Hc : 43 <= c).
  { destruct H as [(i & Hi & ->) | ->]; [| lia].
    pose proof (base64_char_range i Hi). lia. }
  unfold ascii_whitespace. now decide_tests.
Qed.

Lemma filter_all {A} (f : A -> bool) (l : list A) :
  Forall (fun x => f x = true) l -> filter f l = l.
Proof.
  induction 1 as [| x l Hx _ IH]; [reflexivity |].
  cbn [filter]. now rewrite Hx, IH.
Qed.

Lemma code_point_length_ascii (s : jsstring) :
  Forall (fun c => c < 0xD800) s -> code_point_length s = len s.
Proof.
  unfold code_point_length. induction 1 as [| c s Hc _ IH]; [reflexivity |].
  rewrite to_scalar_values_single by lia. rewrite !len_cons. lia.
Qed.

Lemma alphabet_ascii (c : Z) : alphabet c \/ c = 61 -> c < 0xD800.
Proof.
  intros [(i & Hi & ->) | ->]; [| lia].
  pose proof (base64_char_range i Hi). lia.
Qed.

Lemma strip_padding_body (body pad : jsstring) :
  Forall alphabet body ->
  pad = [] \/ (pad = [61] /\ body <> []) \/ pad = [61; 61] ->
  strip_padding (body ++ pad) = body.
Proof.
  intros Hbody Hpad. unfold strip_padding. rewrite rev_app_distr.
  assert (Hlast : forall b rest, rev body = b :: rest -> b <> 61).
  { intros b rest E. assert (Hin : In b body).
    { apply in_rev. rewrite E. now left. }
    rewrite Forall_forall in Hbody. destruct (Hbody b Hin) as (i & Hi & ->).
    now apply base64_char_not_padding. }
  destruct Hpad as [-> | [[-> Hne] | ->]]; cbn [rev app].
  - rewrite app_nil_r. destruct (rev body) as [| a [| b rest]] eqn:E.
    + reflexivity.
    + destruct (Z.eqb_spec a 61); [now elim (Hlast a [] eq_refl) | reflexivity].
    + destruct (Z.eqb_spec a 61); [now elim (Hlast a _ eq_refl) | reflexivity].
  - destruct (rev body) as [| b rest] eqn:E.
    + apply (f_equal (@rev Z)) in E. rewrite rev_involutive in E.
      now elim Hne.
    + change (61 =? 61) with true. cbv iota.
      destruct (Z.eqb_spec b 61); [now elim (Hlast b _ eq_refl) |].
      change (rev rest ++ [b]) with (rev (b :: rest)).
      rewrite <- E. apply rev_involutive.
  - change (61 =? 61) with true. cbv iota. apply rev_involutive.
Qed.

Lemma atob_base64_encode (data : list Z) :
  Forall (fun a => 0 <= a <= 255) data ->
  atob (base64_encode data) = Some data.
Proof.
  intros Hd.
  destruct (base64_encode_shape data Hd) as (body & pad & -> & Hbody & Hpad & Hloop).
  assert (Hall : Forall (fun c => alphabet c \/ c = 61) (body ++ pad)).
  { apply Forall_app. split.
    - eapply Forall_impl; [| exact Hbody]. cbn beta. tauto.
    - destruct Hpad as [[-> _] | [[-> _] | [-> _]]]; repeat constructor; now right. }
  unfold atob, forgiving_base64_decode.
  rewrite filter_all
    by (eapply Forall_impl; [| exact Hall]; apply alphabet_not_whitespace).
  rewrite (code_point_length_ascii (body ++ pad))
    by (eapply Forall_impl; [| exact Hall]; apply alphabet_ascii).
  assert (Hlen : len (body ++ pad) mod 4 = 0).
  { rewrite len_app.
    destruct Hpad as [[-> Hm] | [[-> Hm] | [-> Hm]]];
      [change (len (@nil Z)) with 0 | change (len [61]) with 1
       | change (len [61; 61]) with 2]; lia. }
  rewrite Hlen. change (0 =? 0) with true. cbv iota.
  rewrite strip_padding_body; [| assumption |].
  2:{ destruct Hpad as [[-> _] | [[-> Hm] | [-> _]]]; auto.
      right; left. split; [reflexivity |]. intros ->.
      change (len (@nil Z)) with 0 in Hm. discriminate Hm. }
  rewrite code_point_length_ascii.
  2:{ eapply Forall_impl; [| exact Hbody]. intros c Hc.
      apply alphabet_ascii. now left. }
  assert (Hne : len body mod 4 <> 1) by (destruct Hpad as [[_ ?] | [[_ ?] | [_ ?]]]; lia).
  destruct (Z.eqb_spec (len body mod 4) 1); [contradiction |].
  assert (Hvalid : forallb (fun c => match base64_index c with
                                     | Some _ => true
                                     | None => false
                                     end) body = true).
  { apply forallb_forall. intros c Hin. rewrite Forall_forall in Hbody.
    destruct (Hbody c Hin) as (i & Hi & ->). now rewrite base64_index_char. }
  rewrite Hvalid. now rewrite Hloop.
Qed.

Lemma btoa_bytes (bytes : list byte) :
  btoa (map byte2Z bytes) = Some (base64_encode (map byte2Z bytes)).
Proof.
  unfold btoa.
  assert (H : forallb (fun c => c <=? 255) (map byte2Z bytes) = true).
  { apply forallb_forall. intros c Hin. apply in_map_iff in Hin.
    destruct Hin as (b & <- & _). pose proof (byte2Z_range b). lia. }
  now rewrite H.
Qed.

Lemma map_Z2byte_byte2Z (bytes : list byte) :
  map Z2byte (map byte2Z bytes) = bytes.
Proof.
  rewrite map_map. rewrite <- (map_id bytes) at 2.
  apply map_ext. apply Z2byte_byte2Z.
Qed.

Lemma byte_values_range (bytes : list byte) :
  Forall (fun a => 0 <= a <= 255) (map byte2Z bytes).
Proof.
  apply Forall_map. rewrite Forall_forall. intros b _.
  pose proof (byte2Z_range b). lia.
Qed.

Lemma len_base64_encode (data : list Z) :
  len (base64_encode data) = 4 * ((len data + 2) / 3).
Proof.
  induction data as [| a | a b | a b c rest IH] using list_triple_ind.
  - reflexivity.
  - reflexivity.
  - reflexivity.
  - cbn [base64_encode]. rewrite !len_cons, IH. lia.
Qed.

(** *** The facade *)

Lemma serialize_then_deserialize (m : FileMap) :
  NoDup (map fst m) ->
  Forall (fun e => clean_text (fst e) /\ plain_content (snd e)
                   /\ len (encodeText (fst e)) <= 65535) m ->
  container_size m < 2 ^ 31 ->
  exists buf m',
    serializeFileMap m = Ok buf
    /\ deserializeFileMap buf = Ok m'
    /\ map stored_view m' = map stored_view m.
Proof.
  intros Hnd Hm Hsize.
  assert (Hp : Forall (fun e => len (encodeText (fst e)) <= 65535) m)
    by (eapply Forall_impl; [| exact Hm]; cbn beta; tauto).
  assert (Hclean : Forall (fun e => clean_text (fst e)) m)
    by (eapply Forall_impl; [| exact Hm]; cbn beta; tauto).
  destruct (serializeFileMap_container m Hp Hsize) as [Hser Hlen].
  exists (container (map raw_of_entry m)), (map reread m).
  split; [exact Hser |]. split.
  - rewrite deserializeFileMap_container.
    + rewrite read_records_reread by assumption.
      rewrite fold_map_set_fresh; [reflexivity |].
      cbn [app]. rewrite map_map. cbn [reread fst]. exact Hnd.
    + apply Forall_map. eapply Forall_impl; [| exact Hp]. cbn beta.
      intros e He. cbn [raw_of_entry raw_path]. lia.
    + lia.
  - rewrite map_map. apply map_ext_in. intros e He.
    apply stored_view_reread. rewrite Forall_forall in Hm.
    now apply (Hm e He).
Qed.

(** X18. When the compression stream delivers and the decompression
    stream returns what was compressed, and the normalised input is within
    the limits of the container round trip (well-formed paths without a
    leading U+FEFF and of at most 65535 UTF-8 bytes, text without a leading
    U+FEFF, fewer than 2^31 bytes in all), [zip] returns an archive and
    [unzip] of that archive returns a map with the same paths, kinds and
    content bytes, in the same order. *)
Theorem zip_unzip_roundtrip
  (gzip_compress gzip_decompress : list byte -> StreamRead) (input : ZipInput) :
  (forall data, exists packed,
      gzip_compress data = Delivered packed
      /\ gzip_decompress packed = Delivered data) ->
  NoDup (map fst (normalizeInput input)) ->
  Forall (fun e => clean_text (fst e) /\ plain_content (snd e)
                   /\ len (encodeText (fst e)) <= 65535)
    (normalizeInput input) ->
  container_size (normalizeInput input) < 2 ^ 31 ->
  exists packed m',
    zip gzip_compress input = Returned packed
    /\ unzip gzip_decompress packed = Ok m'
    /\ map stored_view m' = map stored_view (normalizeInput input).
Proof.
  intros Hgzip Hnd Hm Hsize.
  destruct (serialize_then_deserialize _ Hnd Hm Hsize)
    as (buf & m' & Hser & Hde & Hview).
  destruct (Hgzip buf) as (packed & Hc & Hd).
  exists packed, m'. split; [| split; [| exact Hview]].
  - unfold zip, compressWithGzip. now rewrite Hser, Hc.
  - unfold unzip, decompressWithGzip. rewrite Hd. exact Hde.
Qed.

(** Streams that deliver their input unchanged, on [numbered_object]. *)
Lemma zip_unzip_roundtrip_witness :
  exists packed m',
    zip identity_stream (InputObject numbered_object) = Returned packed
    /\ unzip identity_stream packed = Ok m'
    /\ map stored_view m'
       = map stored_view (normalizeInput (InputObject numbered_object)).
Proof.
  apply (zip_unzip_roundtrip identity_stream identity_stream
           (InputObject numbered_object)).
  - intros data. exists data. split; reflexivity.
  - repeat constructor; cbn; intuition discriminate.
  - unfold code_unit. repeat constructor; try lia; vm_compute; congruence.
  - vm_compute. reflexivity.
Defined.

(** X19. When [zip] rejects, the error is [PATH_TOO_LONG] (some path has
    more than 65535 code units), or [CONTENT_TOO_LARGE] (a running size
    check fails), or it is the very value thrown by the compression stream
    on the serialized container: unlike [unzip], [zip] does not turn a
    foreign error into a [SqurpError]. *)
Theorem zip_rejections
  (gzip_compress : list byte -> StreamRead) (input : ZipInput) (error : Thrown) :
  zip gzip_compress input = Rejected error ->
  (error = ThrownSqurp PATH_TOO_LONG
   /\ Exists (fun e => 65535 < len (fst e)) (normalizeInput input))
  \/ (error = ThrownSqurp CONTENT_TOO_LARGE
      /\ ~ size_checks_pass (normalizeInput input) 0)
  \/ (exists serialized,
         serializeFileMap (normalizeInput input) = Ok serialized
         /\ gzip_compress serialized = Failed error).
Proof.
  unfold zip, compressWithGzip. intros H.
  destruct (serializeFileMap (normalizeInput input)) as [buf | code] eqn:Hser.
  - right; right. exists buf. split; [reflexivity |].
    destruct (gzip_compress buf); [discriminate H | now injection H as ->].
  - injection H as <-. apply serializeFileMap_throws in Hser.
    destruct (collectEntries_throws _ [] code Hser) as [[-> Hp] | [-> Hc]];
      [left | right; left]; split; trivial.
Qed.

(** A compression stream that throws a foreign value. *)
Lemma zip_rejections_witness :
  (ThrownOther 0 = ThrownSqurp PATH_TOO_LONG
   /\ Exists (fun e => 65535 < len (fst e)) (normalizeInput (InputMap example_map)))
  \/ (ThrownOther 0 = ThrownSqurp CONTENT_TOO_LARGE
      /\ ~ size_checks_pass (normalizeInput (InputMap example_map)) 0)
  \/ (exists serialized,
         serializeFileMap (normalizeInput (InputMap example_map)) = Ok serialized
         /\ failing_stream serialized = Failed (ThrownOther 0)).
Proof.
  apply (zip_rejections failing_stream (InputMap example_map) (ThrownOther 0)).
  vm_compute. reflexivity.
Defined.

Lemma base64_encode_alphabet (data : list Z) :
  Forall (fun a => 0 <= a <= 255) data ->
  Forall (fun c => alphabet c \/ c = 61) (base64_encode data).
Proof.
  intros Hd.
  destruct (base64_encode_shape data Hd) as (body & pad & -> & Hbody & Hpad & _).
  apply Forall_app. split.
  - eapply Forall_impl; [| exact Hbody]. cbn beta. tauto.
  - destruct Hpad as [[-> _] | [[-> _] | [-> _]]]; repeat constructor; now right.
Qed.

Lemma len_map {A B} (f : A -> B) (l : list A) : len (map f l) = len l.
Proof. unfold len. now rewrite length_map. Qed.

(** X20. The transports add and lose nothing. When [zip] returns an
    archive, [zipToBlob] returns a blob of type
    [application/octet-stream] on which [unzipFromBlob] behaves as [unzip]
    on the archive; and [zipToBase64] returns a string of
    4 * ceil(length / 3) characters, all of the base64 alphabet or [=], on
    which [unzipFromBase64] behaves as [unzip] on the archive. *)
Theorem transports_carry_the_archive
  (gzip_compress gzip_decompress : list byte -> StreamRead)
  (input : ZipInput) (packed : list byte) :
  zip gzip_compress input = Returned packed ->
  (exists blob,
      zipToBlob gzip_compress input = Returned blob
      /\ blob_type blob = octet_stream
      /\ unzipFromBlob gzip_decompress blob
         = of_outcome (unzip gzip_decompress packed))
  /\ (exists base64,
         zipToBase64 gzip_compress input = Returned base64
         /\ len base64 = 4 * ((len packed + 2) / 3)
         /\ Forall (fun c => alphabet c \/ c = 61) base64
         /\ unzipFromBase64 gzip_decompress base64
            = of_outcome (unzip gzip_decompress packed)).
Proof.
  intros Hzip. split.
  - exists (mk_blob packed octet_stream). unfold zipToBlob. rewrite Hzip.
    repeat split.
  - exists (base64_encode (map byte2Z packed)).
    unfold zipToBase64. rewrite Hzip. cbv zeta. rewrite btoa_bytes.
    split; [reflexivity |].
    split; [now rewrite len_base64_encode, len_map |].
    split; [apply base64_encode_alphabet, byte_values_range |].
    unfold unzipFromBase64.
    rewrite atob_base64_encode by apply byte_values_range.
    cbv zeta. now rewrite map_Z2byte_byte2Z.
Qed.

(** Streams that deliver their input unchanged, on [example_map]. *)
Lemma transports_carry_the_archive_witness :
  (exists blob,
      zipToBlob identity_stream (InputMap example_map) = Returned blob
      /\ blob_type blob = octet_stream
      /\ unzipFromBlob identity_stream blob
         = of_outcome (unzip identity_stream (container (map raw_of_entry example_map))))
  /\ (exists base64,
         zipToBase64 identity_stream (InputMap example_map) = Returned base64
         /\ len base64
            = 4 * ((len (container (map raw_of_entry example_map)) + 2) / 3)
         /\ Forall (fun c => alphabet c \/ c = 61) base64
         /\ unzipFromBase64 identity_stream base64
            = of_outcome (unzip identity_stream
                            (container (map raw_of_entry example_map)))).
Proof.
  apply (transports_carry_the_archive identity_stream identity_stream
           (InputMap example_map)).
  vm_compute. reflexivity.
Defined.

Lemma strip_padding_keeps (data : jsstring) (c : Z) :
  In c data -> c <> 61 -> In c (strip_padding data).
Proof.
  intros Hin Hc. unfold strip_padding.
  assert (Hrev : In c (rev data)) by now apply in_rev in Hin.
  destruct (rev data) as [| a [| b rest]]; [assumption | |].
  - destruct (Z.eqb_spec a 61); [| assumption].
    destruct Hrev as [E | []]. congruence.
  - destruct (Z.eqb_spec a 61) as [Ea |]; [| assumption].
    destruct Hrev as [E | Hrev]; [congruence |].
    destruct (Z.eqb_spec b 61) as [Eb |].
    + destruct Hrev as [E | Hrev]; [congruence |]. now apply in_rev in Hrev.
    + now apply in_rev in Hrev.
Qed.

(** X21. When the string holds a character that is neither of the base64
    alphabet, nor [=], nor ASCII whitespace, [unzipFromBase64] rejects with
    the [InvalidCharacterError] of [atob], which is not a [SqurpError]; the
    decompression stream is not reached. *)
Theorem unzipFromBase64_invalid_character
  (gzip_decompress : list byte -> StreamRead) (base64 : jsstring) (c : Z) :
  In c base64 ->
  base64_index c = None -> c <> 61 -> ascii_whitespace c = false ->
  unzipFromBase64 gzip_decompress base64 = Rejected InvalidCharacterError.
Proof.
  intros Hin Hidx Hpad Hws.
  assert (Hatob : atob base64 = None).
  { unfold atob, forgiving_base64_decode.
    set (data := filter (fun c => negb (ascii_whitespace c)) base64).
    assert (Hd : In c data)
      by (apply filter_In; split; [assumption | now rewrite Hws]).
    set (data' := if code_point_length data mod 4 =? 0
                  then strip_padding data else data).
    assert (Hd' : In c data').
    { unfold data'. destruct (code_point_length data mod 4 =? 0);
        [now apply strip_padding_keeps | assumption]. }
    destruct (code_point_length data' mod 4 =? 1); [reflexivity |].
    destruct (forallb _ data') eqn:Hall; [| reflexivity].
    rewrite forallb_forall in Hall. specialize (Hall c Hd').
    rewrite Hidx in Hall. discriminate Hall. }
  unfold unzipFromBase64. now rewrite Hatob.
Qed.

(** The string [c3F!]. *)
Lemma unzipFromBase64_invalid_character_witness :
  unzipFromBase64 identity_stream [99; 51; 70; 33] = Rejected InvalidCharacterError.
Proof.
  apply (unzipFromBase64_invalid_character identity_stream [99; 51; 70; 33] 33).
  - cbn. tauto.
  - reflexivity.
  - discriminate.
  - reflexivity.
Defined.

(* ================================================================= *)
(** ** Text through the codec *)

(** *** [decodeText] after [encodeText] *)

(** X22. For well-formed text, [decodeText] of [encodeText] returns the
    text, without its first code unit when that is U+FEFF. *)
Theorem text_codec_roundtrip (text : jsstring) :
  well_formed text = true ->
  decodeText (encodeText text) =
  if starts_with_bom text then tl text else text.
Proof.
  intros Hwf. destruct (starts_with_bom text) eqn:Hb.
  - destruct text as [| c rest]; [discriminate Hb |].
    cbn [starts_with_bom] in Hb. apply Z.eqb_eq in Hb. subst c. cbn [tl].
    destruct (well_formed_cons_inv _ _ Hwf)
      as [(_ & Hrest & _) | (d & rest' & _ & Hc & _)]; [| lia].
    unfold decodeText, encodeText.
    rewrite to_scalar_values_single by lia.
    rewrite utf8_decode_encode.
    + unfold strip_bom. change (0xFEFF =? 0xFEFF) with true. cbv iota.
      now apply utf16_of_scalar_values.
    + constructor; [unfold scalar_value; lia |].
      now apply to_scalar_values_scalar.
  - apply decodeText_encodeText. now split.
Qed.

(** U+FEFF, a surrogate pair and a letter. *)
Lemma text_codec_roundtrip_witness :
  decodeText (encodeText [0xFEFF; 0xD83D; 0xDE80; 97]) =
  if starts_with_bom [0xFEFF; 0xD83D; 0xDE80; 97]
  then tl [0xFEFF; 0xD83D; 0xDE80; 97] else [0xFEFF; 0xD83D; 0xDE80; 97].
Proof.
  apply (text_codec_roundtrip [0xFEFF; 0xD83D; 0xDE80; 97]). reflexivity.
Defined.

(* ================================================================= *)
(** ** Text returned by the reader *)

(** *** What the decoder returns *)












